(** * Patrol-route generator: [runLocalOptimization] and [getNeighbors]

    A shallow embedding of the greedy route generator of the anti-poaching
    front end (the script that defines [runLocalOptimization] and
    [getNeighbors]) together with the properties its specification states
    about routes, coverage and the statistics record.

    Modelling conventions.
    - JavaScript numbers are idealised: a finite number is a rational [Q]
      (no rounding, no overflow, no negative zero), and the three special
      values [NaN], [+Infinity], [-Infinity] are kept, because the code
      produces them ([bestScore = -Infinity], divisions by zero).
    - Grid coordinates, counters and the integer parameters are [Z].
    - An array is a [list]; reading outside it yields [undefined]
      ([None]), and reading a property of [undefined] throws [TypeError].
    - [Math.random] is a sequence [rnd : nat -> Q] of the values returned
      by its successive calls, with the position of the next call threaded
      through the computation.
    - The [do ... while] loop that picks a start cell need not terminate;
      it is given a fuel and yields [OutOfFuel] when the fuel is spent.
    - The initial [await] of a 500 ms timer only delays the result and is
      not modelled. *)

From Stdlib Require Import ZArith QArith Qround Lia Lqa String Ascii DecimalString.
From stdpp Require Import base tactics option list strings.

Open Scope Z_scope.

(** ** JavaScript numbers *)

Inductive jsnum : Type :=
| Fin (q : Q)
| NaN
| PInf
| NInf.

Definition jneg (x : jsnum) : jsnum :=
  match x with
  | Fin q => Fin (- q)%Q
  | NaN => NaN
  | PInf => NInf
  | NInf => PInf
  end.

Definition jadd (x y : jsnum) : jsnum :=
  match x, y with
  | NaN, _ | _, NaN => NaN
  | PInf, NInf | NInf, PInf => NaN
  | PInf, _ | _, PInf => PInf
  | NInf, _ | _, NInf => NInf
  | Fin a, Fin b => Fin (a + b)%Q
  end.

Definition jsub (x y : jsnum) : jsnum := jadd x (jneg y).

(** Sign of a finite number: [Lt], [Eq] or [Gt] against zero. *)
Definition qsign (q : Q) : comparison := (q ?= 0)%Q.
Arguments qsign : simpl never.

Definition jmul (x y : jsnum) : jsnum :=
  match x, y with
  | NaN, _ | _, NaN => NaN
  | Fin a, Fin b => Fin (a * b)%Q
  | PInf, PInf | NInf, NInf => PInf
  | PInf, NInf | NInf, PInf => NInf
  | PInf, Fin a | Fin a, PInf =>
      match qsign a with Gt => PInf | Lt => NInf | Eq => NaN end
  | NInf, Fin a | Fin a, NInf =>
      match qsign a with Gt => NInf | Lt => PInf | Eq => NaN end
  end.

Definition jdiv (x y : jsnum) : jsnum :=
  match x, y with
  | NaN, _ | _, NaN => NaN
  | Fin a, Fin b =>
      match qsign b with
      | Eq => match qsign a with Gt => PInf | Lt => NInf | Eq => NaN end
      | _ => Fin (a / b)%Q
      end
  | Fin _, (PInf | NInf) => Fin 0%Q
  | (PInf | NInf), (PInf | NInf) => NaN
  | PInf, Fin b => match qsign b with Lt => NInf | _ => PInf end
  | NInf, Fin b => match qsign b with Lt => PInf | _ => NInf end
  end.

(** [x > y]; false as soon as one side is [NaN]. *)
Definition jgt (x y : jsnum) : bool :=
  match x, y with
  | NaN, _ | _, NaN => false
  | PInf, PInf => false
  | PInf, _ => true
  | _, PInf => false
  | NInf, _ => false
  | Fin _, NInf => true
  | Fin a, Fin b => match (a ?= b)%Q with Gt => true | _ => false end
  end.

(** [x >= y]; false as soon as one side is [NaN]. *)
Definition jge (x y : jsnum) : bool :=
  match x, y with
  | NaN, _ | _, NaN => false
  | PInf, _ => true
  | _, NInf => true
  | _, PInf => false
  | NInf, _ => false
  | Fin a, Fin b => match (a ?= b)%Q with Lt => false | _ => true end
  end.

Definition of_Z (z : Z) : jsnum := Fin (inject_Z z).

(** [Number.prototype.toFixed(0)].  A finite [x] is printed as the integer
    [n] closest to [|x|] (the larger one on a tie), with a leading minus
    sign when [x < 0].  From [10^21] on JavaScript switches to the exponent
    notation of [ToString], which has no counterpart on idealised numbers:
    the model answers [None] there. *)
Definition toFixed0 (x : jsnum) : option string :=
  match x with
  | NaN => Some "NaN"%string
  | PInf => Some "Infinity"%string
  | NInf => Some "-Infinity"%string
  | Fin q =>
      let neg := match qsign q with Lt => true | _ => false end in
      let a := if neg then (- q)%Q else q in
      let n := Qfloor (a + (1 # 2))%Q in
      if decide (10 ^ 21 <= Qfloor a) then None
      else
        let digits := NilZero.string_of_uint (N.to_uint (Z.to_N n)) in
        Some (if neg then String "-" digits else digits)
  end.

(** ** Outcomes of a computation *)

Inductive error : Type :=
| TypeError    (* a property of [undefined] was read *)
| RangeError.  (* [Array(n)] with an invalid length *)

Inductive outcome (A : Type) : Type :=
| Returned (a : A)
| Thrown (e : error)
| OutOfFuel       (* the start-selection loop is still running *)
| Unmodelled.     (* the run leaves the fragment of JavaScript modelled here *)

Arguments Returned {A} a.
Arguments Thrown {A} e.
Arguments OutOfFuel {A}.
Arguments Unmodelled {A}.

Definition bind {A B} (m : outcome A) (k : A -> outcome B) : outcome B :=
  match m with
  | Returned a => k a
  | Thrown e => Thrown e
  | OutOfFuel => OutOfFuel
  | Unmodelled => Unmodelled
  end.

Declare Scope outcome_scope.
Delimit Scope outcome_scope with outcome.
Notation "'let*' x ':=' m 'in' k" := (bind m (fun x => k))
  (at level 10, x pattern, m at level 200, k at level 200) : outcome_scope.
Open Scope outcome_scope.

(** ** Arrays *)

(** [a[i]] for an integer [i]: [None] is [undefined]. *)
Definition at_ {A} (a : list A) (i : Z) : option A :=
  if decide (0 <= i) then a !! Z.to_nat i else None.

(** [m[r]]: the row when it exists, [TypeError] being what a further
    [m[r][c]] raises when it does not. *)
Definition row_of {A} (m : list (list A)) (r : Z) : outcome (list A) :=
  match at_ m r with
  | Some row => Returned row
  | None => Thrown TypeError
  end.

(** [Array(n)]: the length must be an unsigned 32-bit integer. *)
Definition newArray {A} (n : Z) (x : A) : outcome (list A) :=
  if decide (0 <= n < 2 ^ 32) then Returned (replicate (Z.to_nat n) x)
  else Thrown RangeError.

Fixpoint mapM {A B} (f : A -> outcome B) (l : list A) : outcome (list B) :=
  match l with
  | [] => Returned []
  | x :: l' =>
      let* y := f x in
      let* ys := mapM f l' in
      Returned (y :: ys)
  end.

(** [for (let i = i0; i < i0 + n; i++) s = body(i, s)] *)
Fixpoint for_ {St} (n : nat) (i : Z) (body : Z -> St -> outcome St) (s : St)
  : outcome St :=
  match n with
  | O => Returned s
  | S n' => let* s' := body i s in for_ n' (i + 1) body s'
  end.

(** ** Data model *)

Record Params : Type := {
  gridSize : Z;
  rangerCount : Z;
  maxSteps : Z;
  riskMap : list (list Q);
  animalMap : list (list bool);
  terrainMap : list (list Z)
}.

Abbreviation cell := (Z * Z)%type.
Abbreviation grid := (list (list Z)).

Record Route : Type := { rangerId : Z; path : list cell }.

Record Stats : Type := {
  beforeRisk : jsnum;
  afterRisk : jsnum;
  riskReduction : string;
  highRiskCoverage : string
}.

Record Result : Type := {
  routes : list Route;
  coverage : grid;
  stats : Stats
}.

(** [Array(gridSize).fill(null).map(() => Array(gridSize).fill(0))] *)
Definition newCoverage (n : Z) : outcome grid :=
  let* outer := newArray n tt in
  mapM (fun _ => newArray n 0) outer.

(** [coverage[r][c]++].  On a missing row this throws.  On a missing
    element of an existing row JavaScript stores [NaN] under a new
    property of the row; arrays of that shape are outside the model. *)
Definition increment (coverage : grid) (r c : Z) : outcome grid :=
  let* row := row_of coverage r in
  match at_ row c with
  | Some v =>
      Returned (<[Z.to_nat r := <[Z.to_nat c := v + 1]> row]> coverage)
  | None => Unmodelled
  end.

(** ** [getNeighbors] *)

Definition directions : list (Z * Z) := [(-1, 0); (1, 0); (0, -1); (0, 1)].

(** [v === 1] *)
Definition isOne (v : option Z) : bool :=
  match v with Some 1 => true | _ => false end.

(** [v === 0] *)
Definition isZero (v : option Z) : bool :=
  match v with Some 0 => true | _ => false end.

Definition inGrid (p : Params) (nr nc : Z) : bool :=
  (0 <=? nr) && (nr <? gridSize p) && (0 <=? nc) && (nc <? gridSize p).

(** The loop over [directions]; the terrain is read only once the bounds
    test has passed ([&&] short-circuits). *)
Fixpoint getNeighbors_from (ds : list (Z * Z)) (row col : Z) (p : Params)
    (neighbors : list cell) : outcome (list cell) :=
  match ds with
  | [] => Returned neighbors
  | (dr, dc) :: ds' =>
      let nr := row + dr in
      let nc := col + dc in
      if inGrid p nr nc then
        let* trow := row_of (terrainMap p) nr in
        if isOne (at_ trow nc)
        then getNeighbors_from ds' row col p (neighbors ++ [(nr, nc)])
        else getNeighbors_from ds' row col p neighbors
      else getNeighbors_from ds' row col p neighbors
  end.

Definition getNeighbors (row col : Z) (p : Params) : outcome (list cell) :=
  getNeighbors_from directions row col p [].

(** ** The greedy walk *)

(** [params.riskMap[nr][nc]]; an [undefined] element behaves as [NaN] in
    each use the code makes of it ([* 2], [+=], [* 0.2], [>= 0.7]). *)
Definition riskAt (p : Params) (nr nc : Z) : outcome jsnum :=
  let* row := row_of (riskMap p) nr in
  Returned (match at_ row nc with Some q => Fin q | None => NaN end).

(** [params.animalMap[nr][nc] ? 1 : 0] *)
Definition animalAt (p : Params) (nr nc : Z) : outcome jsnum :=
  let* row := row_of (animalMap p) nr in
  Returned (match at_ row nc with Some true => Fin 1 | _ => Fin 0 end).

(** [coverage[nr][nc]] as a number; [undefined + 1] is [NaN]. *)
Definition visitedAt (coverage : grid) (nr nc : Z) : outcome jsnum :=
  let* row := row_of coverage nr in
  Returned (match at_ row nc with Some v => of_Z v | None => NaN end).

Definition scoreOf (p : Params) (coverage : grid) (nr nc : Z)
  : outcome jsnum :=
  let* risk := riskAt p nr nc in
  let* animal := animalAt p nr nc in
  let* visited := visitedAt coverage nr nc in
  Returned (jdiv (jadd (jmul risk (Fin 2)) animal) (jadd visited (Fin 1))).

(** The scoring loop [for (const [nr, nc] of neighbors)]. *)
Fixpoint scoreLoop (p : Params) (coverage : grid) (neighbors : list cell)
    (bestNeighbor : cell) (bestScore : jsnum) : outcome cell :=
  match neighbors with
  | [] => Returned bestNeighbor
  | (nr, nc) :: rest =>
      let* score := scoreOf p coverage nr nc in
      if jgt score bestScore
      then scoreLoop p coverage rest (nr, nc) score
      else scoreLoop p coverage rest bestNeighbor bestScore
  end.

(** One iteration of the walk loop from the current cell: [None] is the
    [break] on an empty neighbour list, otherwise the cell moved to and the
    coverage after its increment. *)
Definition walkStep (p : Params) (coverage : grid) (currentRow currentCol : Z)
  : outcome (option (cell * grid)) :=
  let* neighbors := getNeighbors currentRow currentCol p in
  match neighbors with
  | [] => Returned None
  | first :: _ =>
      let* bestNeighbor := scoreLoop p coverage neighbors first NInf in
      let* coverage' := increment coverage bestNeighbor.1 bestNeighbor.2 in
      Returned (Some (bestNeighbor, coverage'))
  end.

(** [for (let step = 1; step < params.maxSteps; step++)], with [steps] the
    number of iterations still allowed. *)
Fixpoint walk (steps : nat) (p : Params) (currentRow currentCol : Z)
    (path : list cell) (coverage : grid) : outcome (list cell * grid) :=
  match steps with
  | O => Returned (path, coverage)
  | S steps' =>
      let* next := walkStep p coverage currentRow currentCol in
      match next with
      | None => Returned (path, coverage)
      | Some (best, coverage') =>
          walk steps' p best.1 best.2 (path ++ [best]) coverage'
      end
  end.

(** ** Start selection *)

(** [Math.floor(Math.random() * params.gridSize)] for the value [x] that
    [Math.random()] returned. *)
Definition randomIndex (p : Params) (x : Q) : Z :=
  Qfloor (x * inject_Z (gridSize p)).

(** The [do ... while (params.terrainMap[startRow][startCol] === 0)] loop.
    [k] is the number of calls of [Math.random] made so far; the result
    carries the start cell and the updated count. *)
Fixpoint findStart (fuel : nat) (rnd : nat -> Q) (k : nat) (p : Params)
  : outcome (cell * nat) :=
  match fuel with
  | O => OutOfFuel
  | S fuel' =>
      let startRow := randomIndex p (rnd k) in
      let startCol := randomIndex p (rnd (S k)) in
      let* trow := row_of (terrainMap p) startRow in
      if isZero (at_ trow startCol)
      then findStart fuel' rnd (S (S k)) p
      else Returned ((startRow, startCol), S (S k))
  end.

(** ** Route generation *)

(** The body of [for (let r = 0; r < params.rangerCount; r++)], on the
    state made of [routes], [coverage] and the random-call count. *)
Definition ranger (fuel : nat) (rnd : nat -> Q) (p : Params) (r : Z)
    (st : list Route * grid * nat) : outcome (list Route * grid * nat) :=
  let '(routes, coverage, k) := st in
  let* (start, k') := findStart fuel rnd k p in
  let* coverage1 := increment coverage start.1 start.2 in
  let* (path, coverage2) :=
    walk (Z.to_nat (maxSteps p - 1)) p start.1 start.2 [start] coverage1 in
  Returned (routes ++ [{| rangerId := r; path := path |}], coverage2, k').

Definition generateRoutes (fuel : nat) (rnd : nat -> Q) (p : Params)
    (coverage0 : grid) : outcome (list Route * grid * nat) :=
  for_ (Z.to_nat (rangerCount p)) 0 (ranger fuel rnd p) ([], coverage0, 0%nat).

(** ** Statistics *)

(** The four accumulators of the statistics loops. *)
Record Acc : Type := {
  totalRisk : jsnum;
  coveredRisk : jsnum;
  highRiskCells : Z;
  coveredHighRisk : Z
}.

(** [coverage[row][col] > 0]; [undefined > 0] is false. *)
Definition coveredAt (coverage : grid) (row col : Z) : outcome bool :=
  let* crow := row_of coverage row in
  Returned (match at_ crow col with Some v => 0 <? v | None => false end).

(** The body of the inner statistics loop. *)
Definition statsCell (p : Params) (coverage : grid) (row col : Z) (a : Acc)
  : outcome Acc :=
  let* trow := row_of (terrainMap p) row in
  if isOne (at_ trow col) then
    let* risk := riskAt p row col in
    let total := jadd (totalRisk a) risk in
    let* (high, coveredHigh) :=
      if jge risk (Fin (7 # 10)) then
        let* c := coveredAt coverage row col in
        Returned (highRiskCells a + 1,
                  if c then coveredHighRisk a + 1 else coveredHighRisk a)
      else Returned (highRiskCells a, coveredHighRisk a) in
    let* c := coveredAt coverage row col in
    let covered :=
      if c then jadd (coveredRisk a) (jmul risk (Fin (2 # 10)))
      else jadd (coveredRisk a) risk in
    Returned {| totalRisk := total; coveredRisk := covered;
                highRiskCells := high; coveredHighRisk := coveredHigh |}
  else Returned a.

Definition statsLoops (p : Params) (coverage : grid) : outcome Acc :=
  for_ (Z.to_nat (gridSize p)) 0
    (fun row a =>
       for_ (Z.to_nat (gridSize p)) 0
         (fun col a' => statsCell p coverage row col a') a)
    {| totalRisk := Fin 0; coveredRisk := Fin 0;
       highRiskCells := 0; coveredHighRisk := 0 |}.

(** [x.toFixed(0)] inside the outcome monad. *)
Definition toFixed (x : jsnum) : outcome string :=
  match toFixed0 x with
  | Some s => Returned s
  | None => Unmodelled
  end.

Definition percent (x : jsnum) : jsnum := jmul x (Fin 100).

Definition finishStats (p : Params) (a : Acc) : outcome Stats :=
  let cells := of_Z (gridSize p * gridSize p) in
  let beforeRisk := jdiv (totalRisk a) cells in
  let afterRisk := jdiv (coveredRisk a) cells in
  let* reduction :=
    toFixed (percent (jdiv (jsub beforeRisk afterRisk) beforeRisk)) in
  let* highCoverage :=
    if 0 <? highRiskCells a
    then toFixed (percent (jdiv (of_Z (coveredHighRisk a))
                                (of_Z (highRiskCells a))))
    else Returned "100"%string in
  Returned {| beforeRisk := beforeRisk;
              afterRisk := afterRisk;
              riskReduction := (reduction ++ "%")%string;
              highRiskCoverage := (highCoverage ++ "%")%string |}.

Definition computeStats (p : Params) (coverage : grid) : outcome Stats :=
  let* a := statsLoops p coverage in
  finishStats p a.

(** ** [runLocalOptimization] *)

Definition runLocalOptimization (fuel : nat) (rnd : nat -> Q) (p : Params)
  : outcome Result :=
  let* coverage0 := newCoverage (gridSize p) in
  let* (generated, _) := generateRoutes fuel rnd p coverage0 in
  let* stats := computeStats p generated.2 in
  Returned {| routes := generated.1; coverage := generated.2;
              stats := stats |}.

(** ** Sample runs *)

Definition corridor : Params :=
  {| gridSize := 2; rangerCount := 1; maxSteps := 3;
     riskMap := [[1 # 2; 1 # 2]; [0; 0]]%Q;
     animalMap := [[false; false]; [false; false]];
     terrainMap := [[1; 1]; [0; 0]] |}.

Definition zeros : nat -> Q := fun _ => 0%Q.

Definition corridor_result : Result :=
  {| routes := [{| rangerId := 0; path := [(0, 0); (0, 1); (0, 0)] |}];
     coverage := [[2; 1]; [0; 0]];
     stats := {| beforeRisk := Fin (4 # 16);
                 afterRisk := Fin (80 # 1600);
                 riskReduction := "80%";
                 highRiskCoverage := "100%" |} |}.

(** Two rangers on a three by three grid with one impassable cell, an
    animal in a corner and risk 1 at the centre. *)
Definition patrol : Params :=
  {| gridSize := 3; rangerCount := 2; maxSteps := 4;
     riskMap := [[0; 0; 0]; [0; 1; 0]; [0; 0; 0]]%Q;
     animalMap := [[false; false; true]; [false; false; false];
                   [false; false; false]];
     terrainMap := [[1; 1; 1]; [1; 1; 0]; [1; 1; 1]] |}.

(** A random source whose second draw of a start cell hits the impassable
    cell (1, 2) and is retried. *)
Definition draws : nat -> Q := fun k =>
  match k with
  | 0%nat | 1%nat => 0%Q
  | 2%nat => (1 # 2)%Q
  | 3%nat => (3 # 4)%Q
  | _ => (9 # 10)%Q
  end.

Definition patrol_result : Result :=
  {| routes :=
       [{| rangerId := 0; path := [(0, 0); (1, 0); (1, 1); (0, 1)] |};
        {| rangerId := 1; path := [(2, 2); (2, 1); (1, 1); (0, 1)] |}];
     coverage := [[1; 2; 0]; [1; 2; 0]; [0; 1; 1]];
     stats := {| beforeRisk := Fin (1 # 9);
                 afterRisk := Fin (200000 # 9000000);
                 riskReduction := "80%";
                 highRiskCoverage := "100%" |} |}.

(** Three by three, all passable, risk 1 at the centre and 0 elsewhere. *)
Definition centre3 : Params :=
  {| gridSize := 3; rangerCount := 1; maxSteps := 3;
     riskMap := [[0; 0; 0]; [0; 1; 0]; [0; 0; 0]]%Q;
     animalMap := replicate 3 (replicate 3 false);
     terrainMap := replicate 3 (replicate 3 1) |}.

(** ** Notions of the specification *)

(** [m[r][c]] when both the row and the element exist. *)
Definition cellAt {A} (m : list (list A)) (x : cell) : option A :=
  match at_ m x.1 with
  | Some row => at_ row x.2
  | None => None
  end.

(** An [n] by [n] array of arrays. *)
Definition has_dims {A} (n : Z) (m : list (list A)) : Prop :=
  length m = Z.to_nat n /\ Forall (fun row => length row = Z.to_nat n) m.

(** The three input grids have the side [gridSize]. *)
Definition dims_ok (p : Params) : Prop :=
  has_dims (gridSize p) (riskMap p) /\
  has_dims (gridSize p) (animalMap p) /\
  has_dims (gridSize p) (terrainMap p).

Definition in_bounds (p : Params) (x : cell) : Prop :=
  0 <= x.1 < gridSize p /\ 0 <= x.2 < gridSize p.

(** [terrainMap[row][col]] is [1], the passable flag. *)
Definition passable (p : Params) (x : cell) : Prop :=
  cellAt (terrainMap p) x = Some 1.

(** Every terrain flag of the grid is [0] or [1]. *)
Definition terrain_flags (p : Params) : Prop :=
  forall x, in_bounds p x ->
    cellAt (terrainMap p) x = Some 0 \/ cellAt (terrainMap p) x = Some 1.

(** One orthogonal unit step apart. *)
Definition adjacent (a b : cell) : Prop :=
  (a.1 = b.1 /\ Z.abs (a.2 - b.2) = 1) \/
  (a.2 = b.2 /\ Z.abs (a.1 - b.1) = 1).

(** Number of step indices of [l] that hold the cell [x]. *)
Fixpoint occurrences (x : cell) (l : list cell) : Z :=
  match l with
  | [] => 0
  | y :: l' => (if decide (y = x) then 1 else 0) + occurrences x l'
  end.

(** Number of (route, step index) pairs of [rs] that hold the cell [x]. *)
Fixpoint visits (x : cell) (rs : list Route) : Z :=
  match rs with
  | [] => 0
  | rt :: rs' => occurrences x (path rt) + visits x rs'
  end.

(** The four orthogonal neighbours of a cell: up, down, left, right. *)
Definition around (x : cell) : list cell :=
  [(x.1 - 1, x.2); (x.1 + 1, x.2); (x.1, x.2 - 1); (x.1, x.2 + 1)].

(** In bounds and flagged [1] in the terrain. *)
Definition openCell (p : Params) (x : cell) : bool :=
  inGrid p x.1 x.2 && isOne (cellAt (terrainMap p) x).

(** The candidate list of the specification: the open cells among the four
    neighbours, in the order up, down, left, right. *)
Definition candidates (p : Params) (x : cell) : list cell :=
  List.filter (openCell p) (around x).

Definition riskOf (p : Params) (x : cell) : Q :=
  default 0%Q (cellAt (riskMap p) x).

Definition animalOf (p : Params) (x : cell) : Q :=
  if default false (cellAt (animalMap p) x) then 1%Q else 0%Q.

Definition coverageOf (coverage : grid) (x : cell) : Z :=
  default 0 (cellAt coverage x).

(** [score = (risk * 2 + (animal ? 1 : 0)) / (coverage + 1)] *)
Definition score (p : Params) (coverage : grid) (x : cell) : Q :=
  ((riskOf p x * 2 + animalOf p x)
   / (inject_Z (coverageOf coverage x) + 1))%Q.

(** [b] is at index [i] of [l], no element of [l] scores more than [b] and
    every element before index [i] scores strictly less: the first maximum
    of [f] over [l]. *)
Definition first_max (f : cell -> Q) (l : list cell) (i : nat) (b : cell)
  : Prop :=
  l !! i = Some b /\
  (forall j y, l !! j = Some y -> (f y <= f b)%Q) /\
  (forall j y, (j < i)%nat -> l !! j = Some y -> (f y < f b)%Q).

(** A coverage grid of the right side whose counters are not negative. *)
Definition coverage_ok (p : Params) (coverage : grid) : Prop :=
  has_dims (gridSize p) coverage /\
  Forall (Forall (fun v => 0 <= v)) coverage.

(** [ext] is a walk from [x]: each cell is a candidate of the one before. *)
Fixpoint chain (p : Params) (x : cell) (ext : list cell) : Prop :=
  match ext with
  | [] => True
  | y :: ext' => y ∈ candidates p x /\ chain p y ext'
  end.

(** What one ranger produces: a start cell that the start selection
    accepted, inside the coverage grid, followed by a walk of at most
    [maxSteps - 1] moves. *)
Definition route_ok (p : Params) (rt : Route) : Prop :=
  exists start ext,
    path rt = start :: ext /\
    in_bounds p start /\
    isZero (cellAt (terrainMap p) start) = false /\
    chain p start ext /\
    (length ext <= Z.to_nat (maxSteps p - 1))%nat.

(** Consecutive cells of a path are one orthogonal unit step apart. *)
Definition connected (l : list cell) : Prop :=
  forall i a b, l !! i = Some a -> l !! S i = Some b -> adjacent a b.

(** The input type of the specification: positive parameters, three grids
    of side [gridSize], risks in [0, 1], terrain flags 0 or 1. *)
Definition valid_params (p : Params) : Prop :=
  0 < gridSize p /\ 0 < rangerCount p /\ 0 < maxSteps p /\
  dims_ok p /\
  Forall (Forall (fun q => 0 <= q <= 1)%Q) (riskMap p) /\
  Forall (Forall (fun v => v = 0 \/ v = 1)) (terrainMap p).

(** [Math.random] returns numbers of the interval [0, 1). *)
Definition unit_source (rnd : nat -> Q) : Prop :=
  forall k, (0 <= rnd k < 1)%Q.

(** Every cell of the terrain grid is impassable. *)
Definition all_impassable (p : Params) : Prop :=
  forall x, in_bounds p x -> cellAt (terrainMap p) x = Some 0.

(** A single impassable cell. *)
Definition walled : Params :=
  {| gridSize := 1; rangerCount := 1; maxSteps := 1;
     riskMap := [[0%Q]]; animalMap := [[false]]; terrainMap := [[0]] |}.

(** Equality of numbers: [Qeq] on the finite ones. *)
Definition jeq (x y : jsnum) : Prop :=
  match x, y with
  | Fin a, Fin b => (a == b)%Q
  | NaN, NaN | PInf, PInf | NInf, NInf => True
  | _, _ => False
  end.

(** Two by two, all passable, no risk anywhere. *)
Definition calm : Params :=
  {| gridSize := 2; rangerCount := 1; maxSteps := 2;
     riskMap := [[0; 0]; [0; 0]]%Q;
     animalMap := [[false; false]; [false; false]];
     terrainMap := [[1; 1]; [1; 1]] |}.

Definition calm_result : Result :=
  {| routes := [{| rangerId := 0; path := [(0, 0); (1, 0)] |}];
     coverage := [[1; 0]; [1; 0]];
     stats := {| beforeRisk := Fin (0 # 4);
                 afterRisk := Fin (0 # 400);
                 riskReduction := "NaN%";
                 highRiskCoverage := "100%" |} |}.

(** ** The reference statistics of the specification *)

(** The cells of the grid, row by row. *)
Definition cells (p : Params) : list cell :=
  flat_map (fun r => map (fun c => (r, c)) (seqZ 0 (gridSize p)))
           (seqZ 0 (gridSize p)).

Definition isPassable (p : Params) (x : cell) : bool :=
  isOne (cellAt (terrainMap p) x).

(** [coverage > 0] *)
Definition isCovered (coverage : grid) (x : cell) : bool :=
  0 <? coverageOf coverage x.

(** [risk >= 0.7] *)
Definition isHighRisk (p : Params) (x : cell) : bool :=
  Qle_bool (7 # 10) (riskOf p x).

Fixpoint sumQ (l : list Q) : Q :=
  match l with
  | [] => 0%Q
  | q :: l' => (q + sumQ l')%Q
  end.

(** The risk a passable cell contributes once patrols are accounted for. *)
Definition mitigated (p : Params) (coverage : grid) (x : cell) : Q :=
  if isCovered coverage x then (riskOf p x * (2 # 10))%Q else riskOf p x.





(** [100 * num / den] rounded to the nearest integer, as a percentage. *)
Definition percentString (num den : Z) : string :=
  (NilZero.string_of_uint
     (N.to_uint (Z.to_N (Qfloor (inject_Z num / inject_Z den * 100
                                 + (1 # 2))%Q))) ++ "%")%string.

(** Among the cells with [risk >= 0.7], the percentage with
    [coverage > 0]; 100% when there is no such cell. *)
Definition ref_highRiskCoverage (p : Params) (coverage : grid) : string :=
  let high := List.filter (isHighRisk p) (cells p) in
  let covered := List.filter (isCovered coverage) high in
  match high with
  | [] => "100%"%string
  | _ => percentString (Z.of_nat (length covered)) (Z.of_nat (length high))
  end.

(** No impassable cell of the grid is a high-risk cell; in particular when
    impassable cells carry the risk 0. *)
Definition risk_convention (p : Params) : Prop :=
  forall x, in_bounds p x -> isPassable p x = false -> isHighRisk p x = false.

(** The effect of the body of the statistics loops on the accumulators, on
    a cell whose reads succeed. *)
Definition stepAcc (p : Params) (coverage : grid) (a : Acc) (x : cell) : Acc :=
  if isPassable p x then
    let risk := Fin (riskOf p x) in
    let high := jge risk (Fin (7 # 10)) in
    let c := isCovered coverage x in
    {| totalRisk := jadd (totalRisk a) risk;
       coveredRisk :=
         if c then jadd (coveredRisk a) (jmul risk (Fin (2 # 10)))
         else jadd (coveredRisk a) risk;
       highRiskCells :=
         if high then highRiskCells a + 1 else highRiskCells a;
       coveredHighRisk :=
         if high then (if c then coveredHighRisk a + 1 else coveredHighRisk a)
         else coveredHighRisk a |}
  else a.

Definition acc0 : Acc :=
  {| totalRisk := Fin 0; coveredRisk := Fin 0;
     highRiskCells := 0; coveredHighRisk := 0 |}.

(** Two high-risk cells, a single one-cell route. *)
Definition hotspots : Params :=
  {| gridSize := 2; rangerCount := 1; maxSteps := 1;
     riskMap := [[9 # 10; 8 # 10]; [0; 0]]%Q;
     animalMap := [[false; false]; [false; false]];
     terrainMap := [[1; 1]; [1; 1]] |}.


(** No ranger is asked for: a one-cell grid of risk 1/2. *)
Definition idle : Params :=
  {| gridSize := 1; rangerCount := 0; maxSteps := 5;
     riskMap := [[1 # 2]]%Q; animalMap := [[false]]; terrainMap := [[1]] |}.

Definition idle_result : Result :=
  {| routes := [];
     coverage := [[0]];
     stats := {| beforeRisk := Fin (1 # 2);
                 afterRisk := Fin (1 # 2);
                 riskReduction := "0%";
                 highRiskCoverage := "100%" |} |}.

(** [maxSteps] is zero: the walk loop is never entered. *)
Definition stepless : Params :=
  {| gridSize := 2; rangerCount := 2; maxSteps := 0;
     riskMap := [[1 # 2; 1 # 2]; [0; 0]]%Q;
     animalMap := [[false; false]; [false; false]];
     terrainMap := [[1; 1]; [0; 0]] |}.

Definition stepless_result : Result :=
  {| routes := [{| rangerId := 0; path := [(0, 0)] |};
                {| rangerId := 1; path := [(0, 0)] |}];
     coverage := [[2; 0]; [0; 0]];
     stats := {| beforeRisk := Fin (4 # 16);
                 afterRisk := Fin (24 # 160);
                 riskReduction := "40%";
                 highRiskCoverage := "100%" |} |}.

(** A negative side. *)
Definition inverted : Params :=
  {| gridSize := -1; rangerCount := 1; maxSteps := 1;
     riskMap := []; animalMap := []; terrainMap := [] |}.

(** Arrays larger than the declared side. *)
Definition oversized : Params :=
  {| gridSize := 1; rangerCount := 1; maxSteps := 2;
     riskMap := [[1 # 2; 0]; [0; 0]]%Q;
     animalMap := [[false; false]; [false; false]];
     terrainMap := [[1; 1]; [1; 1]] |}.

Definition oversized_result : Result :=
  {| routes := [{| rangerId := 0; path := [(0, 0)] |}];
     coverage := [[1]];
     stats := {| beforeRisk := Fin (1 # 2);
                 afterRisk := Fin (2 # 20);
                 riskReduction := "80%";
                 highRiskCoverage := "100%" |} |}.

(** The draw made at position [k] of the random source lands on a cell
    that the start selection accepts. *)
Definition hits (rnd : nat -> Q) (p : Params) (k : nat) : Prop :=
  isZero (cellAt (terrainMap p)
            (randomIndex p (rnd k), randomIndex p (rnd (S k)))) = false.

(** From every position, one of the next [fuel] draws is accepted. *)
Definition finds (fuel : nat) (rnd : nat -> Q) (p : Params) : Prop :=
  forall k, exists j, (j < fuel)%nat /\ hits rnd p (k + 2 * j).

(** * The map generator and its callers *)

(** ** [generateRandomMap] *)

(** The object [currentMap]. *)
Record MapData : Type := {
  map_gridSize : Z;
  map_riskMap : list (list Q);
  map_animalMap : list (list bool);
  map_terrainMap : list (list Z)
}.

(** A [for] loop whose body cannot throw:
    [for (let i = i0; i < i0 + n; i++) s = body(i, s)]. *)
Fixpoint forPure {St} (n : nat) (i : Z) (body : Z -> St -> St) (s : St) : St :=
  match n with
  | O => s
  | S n' => forPure n' (i + 1) body (body i s)
  end.

(** [a < b] on numbers. *)
Definition Qlt_bool (a b : Q) : bool := negb (Qle_bool b a).

(** [Math.min(a, b)] and [Math.max(a, b)] on finite numbers. *)
Definition qmin (a b : Q) : Q := if Qle_bool a b then a else b.
Definition qmax (a b : Q) : Q := if Qle_bool a b then b else a.

(** [Math.round(x)]: the nearest integer, the larger one on a tie. *)
Definition round (x : Q) : Z := Qfloor (x + (1 # 2)).

(** [Math.min(row, col, gridSize - 1 - row, gridSize - 1 - col)
     / (gridSize / 2)].  The loops that evaluate it run for
    [gridSize >= 1] only, so the divisor is never zero. *)
Definition edgeFactor (gridSize row col : Z) : Q :=
  (inject_Z (Z.min (Z.min row col)
                   (Z.min (gridSize - 1 - row) (gridSize - 1 - col)))
   / (inject_Z gridSize / 2))%Q.

(** The risk pushed for a passable cell, from the draw [baseRisk]:
    [Math.round(Math.max(0, Math.min(1, baseRisk * (1 - edgeFactor * 0.5)))
                * 100) / 100]. *)
Definition cellRisk (gridSize row col : Z) (baseRisk : Q) : Q :=
  let risk :=
    qmax 0 (qmin 1 (baseRisk * (1 - edgeFactor gridSize row col * (5 # 10)))) in
  (inject_Z (round (risk * 100)) / 100)%Q.

(** [draw < 0.2 * (1 - edgeFactor * 0.3)] *)
Definition cellAnimal (gridSize row col : Z) (draw : Q) : bool :=
  Qlt_bool draw ((2 # 10) * (1 - edgeFactor gridSize row col * (3 # 10))).

(** The body of the inner loop, on the three rows under construction and
    the number [k] of calls of [Math.random] made so far. *)
Definition generateCell (rnd : nat -> Q) (gridSize row col : Z)
    (st : list Q * list bool * list Z * nat)
  : list Q * list bool * list Z * nat :=
  let '(riskRow, animalRow, terrainRow, k) := st in
  if Qlt_bool (1 # 10) (rnd k) then
    (riskRow ++ [cellRisk gridSize row col (rnd (S k))],
     animalRow ++ [cellAnimal gridSize row col (rnd (S (S k)))],
     terrainRow ++ [1],
     S (S (S k)))
  else (riskRow ++ [0%Q], animalRow ++ [false], terrainRow ++ [0], S k).

(** The body of the outer loop, on the three grids under construction. *)
Definition generateRow (rnd : nat -> Q) (gridSize row : Z)
    (st : list (list Q) * list (list bool) * list (list Z) * nat)
  : list (list Q) * list (list bool) * list (list Z) * nat :=
  let '(riskMap, animalMap, terrainMap, k) := st in
  let '(riskRow, animalRow, terrainRow, k') :=
    forPure (Z.to_nat gridSize) 0 (generateCell rnd gridSize row)
      ([], [], [], k) in
  (riskMap ++ [riskRow], animalMap ++ [animalRow], terrainMap ++ [terrainRow],
   k').

(** [generateRandomMap], for the [gridSize] read from the page: the new
    [currentMap] and the updated count of calls of [Math.random].  The
    rendering of the map that follows is [renderMap] below. *)
Definition generateRandomMap (gridSize : Z) (rnd : nat -> Q) (k : nat)
  : MapData * nat :=
  let '(riskMap, animalMap, terrainMap, k') :=
    forPure (Z.to_nat gridSize) 0 (generateRow rnd gridSize) ([], [], [], k) in
  ({| map_gridSize := gridSize; map_riskMap := riskMap;
      map_animalMap := animalMap; map_terrainMap := terrainMap |}, k').

(** The object [params] that [runOptimization] builds from [currentMap]
    and the two numbers read from the page. *)
Definition paramsOf (m : MapData) (rangerCount maxSteps : Z) : Params :=
  {| gridSize := map_gridSize m; rangerCount := rangerCount;
     maxSteps := maxSteps; riskMap := map_riskMap m;
     animalMap := map_animalMap m; terrainMap := map_terrainMap m |}.

(** What the generator pushes for one cell: risk 0 and no animal under the
    flag 0, a number of hundredths between 0 and 1 under the flag 1. *)
Definition generated_cell (q : Q) (a : bool) (t : Z) : Prop :=
  (t = 0 /\ q = 0%Q /\ a = false) \/
  (t = 1 /\ exists n, 0 <= n <= 100 /\ q = (inject_Z n / 100)%Q).

(** Three rows of [n] generated cells. *)
Definition generated_row (n : nat) (qs : list Q) (bs : list bool)
    (ts : list Z) : Prop :=
  length ts = n /\ Forall3 generated_cell qs bs ts.

(** A route either stays on a start cell without open neighbour or has
    [maxSteps] cells. *)
Definition stuck_or_full (p : Params) (rt : Route) : Prop :=
  exists start ext,
    path rt = start :: ext /\
    ((candidates p start = [] /\ ext = []) \/
     (candidates p start <> [] /\
      Z.of_nat (length (path rt)) = maxSteps p)).

(** The decimal digits of a non-negative integer. *)
Definition decimal (n : Z) : string :=
  NilZero.string_of_uint (N.to_uint (Z.to_N n)).

(** ** The page: [Visualizer]

    The part of the document the visualizer works on is the list of the
    children of the element [mapGrid], in document order.  Each child
    carries its two [data-] attributes and its [classList], an ordered set
    of tokens.  The attributes are written and queried as the decimal
    strings of integers, which is the same as comparing the integers.  The
    document is taken to hold no other element of class [map-cell]. *)

Record Element : Type := {
  dataRow : Z;
  dataCol : Z;
  classList : list string
}.

Definition withClasses (e : Element) (l : list string) : Element :=
  {| dataRow := dataRow e; dataCol := dataCol e; classList := l |}.

(** [classList.add(c)] and [classList.remove(c)] *)
Definition addClass (c : string) (l : list string) : list string :=
  if decide (c ∈ l) then l else l ++ [c].

Definition removeClass (c : string) (l : list string) : list string :=
  filter (fun d => d <> c) l.

Definition hasClass (c : string) (e : Element) : bool :=
  bool_decide (c ∈ classList e).

(** The selector [.map-cell[data-row="row"][data-col="col"]]. *)
Definition isMapCell (x : cell) (e : Element) : bool :=
  hasClass "map-cell" e && bool_decide (dataRow e = x.1)
  && bool_decide (dataCol e = x.2).

(** [document.querySelector(selector)]: the first match, if any. *)
Definition querySelector (x : cell) (children : list Element)
  : option Element :=
  List.find (isMapCell x) children.

(** The element that [querySelector] returns, after [g] was applied to it
    in place; nothing changes when there is no match. *)
Fixpoint updateFirst (f : Element -> bool) (g : Element -> Element)
    (children : list Element) : list Element :=
  match children with
  | [] => []
  | e :: rest => if f e then g e :: rest else e :: updateFirst f g rest
  end.

(** A loop over [0 <= i < n] whose body may throw after having changed
    the page: the state reached is kept beside the error. *)
Fixpoint forState {St} (n : nat) (i : Z)
    (body : Z -> St -> St * option error) (s : St) : St * option error :=
  match n with
  | O => (s, None)
  | S n' =>
      match body i s with
      | (s', None) => forState n' (i + 1) body s'
      | (s', Some e) => (s', Some e)
      end
  end.

(** *** [renderMap] *)

(** The class for the risk level; an [undefined] risk fails both tests. *)
Definition riskClass (risk : option Q) : string :=
  match risk with
  | Some q =>
      if Qle_bool (7 # 10) q then "risk-high"
      else if Qle_bool (4 # 10) q then "risk-medium"
      else "risk-low"
  | None => "risk-low"
  end.

(** The body of the inner loop of [renderMap]: the new cell is appended
    to the container once its classes are set, so a read that throws
    leaves the container as it was. *)
Definition renderCell (mapData : MapData) (row col : Z)
    (children : list Element) : list Element * option error :=
  let cell0 := {| dataRow := row; dataCol := col;
                  classList := ["map-cell"] |} in
  match at_ (map_terrainMap mapData) row with
  | None => (children, Some TypeError)
  | Some trow =>
      if isZero (at_ trow col) then
        (children ++ [withClasses cell0 (addClass "terrain" (classList cell0))],
         None)
      else
        match at_ (map_riskMap mapData) row with
        | None => (children, Some TypeError)
        | Some qrow =>
            let l1 := addClass (riskClass (at_ qrow col)) (classList cell0) in
            match at_ (map_animalMap mapData) row with
            | None => (children, Some TypeError)
            | Some arow =>
                let l2 :=
                  match at_ arow col with
                  | Some true => addClass "animal" l1
                  | _ => l1
                  end in
                (children ++ [withClasses cell0 l2], None)
            end
        end
  end.

(** [renderMap(mapData, gridSize)]: the container is emptied, then filled
    row by row. *)
Definition renderMap (mapData : MapData) (gridSize : Z)
  : list Element * option error :=
  forState (Z.to_nat gridSize) 0
    (fun row children =>
       forState (Z.to_nat gridSize) 0
         (fun col children' => renderCell mapData row col children')
         children)
    [].

(** *** [renderRoutes] and [animateRoutes] *)

(** [`route-${index % 5}`] *)
Definition routeClass (index : nat) : string :=
  ("route-" ++ decimal (Z.of_nat (index mod 5)))%string.

(** The clearing of the previous routes: every element that matches
    [.map-cell.patrol, .map-cell.ranger] loses the seven route tokens. *)
Definition clearElement (e : Element) : Element :=
  if hasClass "map-cell" e && (hasClass "patrol" e || hasClass "ranger" e)
  then
    withClasses e
      (removeClass "route-4" (removeClass "route-3" (removeClass "route-2"
        (removeClass "route-1" (removeClass "route-0"
          (removeClass "ranger" (removeClass "patrol" (classList e))))))))
  else e.

Definition clearRoutes (children : list Element) : list Element :=
  map clearElement children.

(** What both renderers do for one point of a path: the cell is looked
    up and, when it exists, gains [patrol], the route colour and, on the
    first step, [ranger]. *)
Definition markElement (index : nat) (first : bool) (e : Element) : Element :=
  let l := addClass (routeClass index) (addClass "patrol" (classList e)) in
  withClasses e (if first then addClass "ranger" l else l).

Definition markCell (x : cell) (index : nat) (first : bool)
    (children : list Element) : list Element :=
  updateFirst (isMapCell x) (markElement index first) children.

(** [route.path.forEach((point, stepIndex) => ...)] *)
Fixpoint markPath (index stepIndex : nat) (path : list cell)
    (children : list Element) : list Element :=
  match path with
  | [] => children
  | point :: rest =>
      markPath index (S stepIndex) rest
        (markCell point index (stepIndex =? 0)%nat children)
  end.

(** [routes.forEach((route, index) => ...)] *)
Fixpoint markRoutes (index : nat) (routes : list Route)
    (children : list Element) : list Element :=
  match routes with
  | [] => children
  | route :: rest =>
      markRoutes (S index) rest (markPath index 0 (path route) children)
  end.

Definition renderRoutes (routes : list Route) (children : list Element)
  : list Element :=
  markRoutes 0 routes (clearRoutes children).

(** One step of the animation:
    [routes.forEach((route, routeIndex) => { if (step < route.path.length) ... })] *)
Fixpoint markStep (step routeIndex : nat) (routes : list Route)
    (children : list Element) : list Element :=
  match routes with
  | [] => children
  | route :: rest =>
      markStep step (S routeIndex) rest
        (match path route !! step with
         | Some point => markCell point routeIndex (step =? 0)%nat children
         | None => children
         end)
  end.

(** [Math.max(...routes.map(r => r.path.length))] as a number of
    iterations: for no route at all the maximum is [-Infinity] and the loop
    does not run. *)
Definition longest (routes : list Route) : nat :=
  foldr Nat.max 0%nat (map (fun r => length (path r)) routes).

(** The page after each step of the animation, the [await]s being the
    points where it can be seen. *)
Fixpoint animateSteps (n step : nat) (routes : list Route)
    (children : list Element) : list (list Element) :=
  match n with
  | O => []
  | S n' =>
      let children' := markStep step 0 routes children in
      children' :: animateSteps n' (S step) routes children'
  end.

Definition animateFrames (routes : list Route) (children : list Element)
  : list (list Element) :=
  animateSteps (longest routes) 0 routes (clearRoutes children).

(** [animateRoutes(routes, delay)]: the page once the animation is over. *)
Definition animateRoutes (routes : list Route) (children : list Element)
  : list Element :=
  List.last (animateFrames routes children) (clearRoutes children).

(** The classes of the cell of the page at [x], as queries see them. *)
Definition classesAt (children : list Element) (x : cell) : list string :=
  match querySelector x children with
  | Some e => classList e
  | None => []
  end.

(** The route tokens. *)
Definition routeTokens : list string :=
  ["patrol"; "ranger"; "route-0"; "route-1"; "route-2"; "route-3"; "route-4"].

(** A page on which a route colour never stays without [patrol] or
    [ranger] beside it, which the clearing relies on. *)
Definition tidyElement (e : Element) : Prop :=
  hasClass "patrol" e || hasClass "ranger" e = false ->
  forall c, c ∈ classList e -> c ∉ routeTokens.

Definition tidy (children : list Element) : Prop :=
  Forall tidyElement children.

(** The marks that a list of routes, numbered from [i0] on, puts on the
    cell [y] when the steps [lo <= j < hi] of each path are drawn. *)
Definition marked (i0 lo hi : nat) (routes : list Route) (y : cell)
    (c : string) : Prop :=
  exists i rt j,
    routes !! i = Some rt /\ path rt !! j = Some y /\
    (lo <= j < hi)%nat /\
    (c = "patrol"%string \/ c = routeClass (i0 + i) \/
     (j = 0%nat /\ c = "ranger"%string)).

(** The page after the first [n] steps of the animation, from step
    [step] on. *)
Fixpoint animateEnd (n step : nat) (routes : list Route)
    (children : list Element) : list Element :=
  match n with
  | O => children
  | S n' => animateEnd n' (S step) routes (markStep step 0 routes children)
  end.

(** The position an element stands for. *)
Definition position (e : Element) : cell := (dataRow e, dataCol e).

(** The element [renderMap] creates for the cell [x] when its reads
    succeed. *)
Definition cellElement (m : MapData) (x : cell) : Element :=
  {| dataRow := x.1; dataCol := x.2;
     classList :=
       if isZero (cellAt (map_terrainMap m) x) then ["map-cell"; "terrain"]
       else
         "map-cell" :: riskClass (cellAt (map_riskMap m) x)
         :: match cellAt (map_animalMap m) x with
            | Some true => ["animal"]
            | _ => []
            end |}%string.

(** The grids of [patrol] as a [currentMap]. *)
Definition patrolMap : MapData :=
  {| map_gridSize := 3;
     map_riskMap := [[0; 0; 0]; [0; 1; 0]; [0; 0; 0]]%Q;
     map_animalMap := [[false; false; true]; [false; false; false];
                       [false; false; false]];
     map_terrainMap := [[1; 1; 1]; [1; 1; 0]; [1; 1; 1]] |}.

(** The drawing of the routes [routes] on a cleared page: what the cell
    [y] gains. *)
Definition drawn (routes : list Route) (y : cell) (c : string) : Prop :=
  exists i rt j,
    routes !! i = Some rt /\ path rt !! j = Some y /\
    (c = "patrol"%string \/ c = routeClass i \/
     (j = 0%nat /\ c = "ranger"%string)).

(** ** The application: the two click handlers

    One call of a handler, from the click to the end of its promise, with
    the two numbers of the form already parsed to integers.  The console
    and the half second that [runLocalOptimization] waits are left out. *)

(** The texts of [alert]: the request for a map, and the failure report
    that ends in the message of the error caught. *)
Inductive message : Type :=
| PleaseGenerate
| OptimizationFailed (e : error).

(** An element matched by [.btn]. *)
Record Button : Type := {
  disabled : bool;
  buttonClasses : list string
}.

(** What the handlers read and write: [currentMap], the children of
    [#mapGrid], the class list of [#results], the buttons, and the alerts
    shown so far, oldest first. *)
Record App : Type := {
  currentMap : MapData;
  mapGrid : list Element;
  results : list string;
  buttons : list Button;
  alerts : list message
}.

(** [currentMap] as the script declares it. *)
Definition initialMap : MapData :=
  {| map_gridSize := 10; map_riskMap := []; map_animalMap := [];
     map_terrainMap := [] |}.

Definition alert (msg : message) (app : App) : App :=
  {| currentMap := currentMap app; mapGrid := mapGrid app;
     results := results app; buttons := buttons app;
     alerts := alerts app ++ [msg] |}.

(** The body of the [forEach] of [setLoading]. *)
Definition setLoadingButton (loading : bool) (btn : Button) : Button :=
  {| disabled := loading;
     buttonClasses :=
       if loading then addClass "loading" (buttonClasses btn)
       else removeClass "loading" (buttonClasses btn) |}.

Definition setLoading (loading : bool) (app : App) : App :=
  {| currentMap := currentMap app; mapGrid := mapGrid app;
     results := results app;
     buttons := map (setLoadingButton loading) (buttons app);
     alerts := alerts app |}.

(** The keys of the object literal [Visualizer]. *)
Definition Visualizer_methods : list string :=
  ["renderMap"; "renderRoutes"; "updateStatsOptimized"; "updateStatsRandom";
   "setLoading"; "animateRoutes"].

(** [generateRandomMap] with its effects on the page: [currentMap] is
    replaced, the grid is drawn, and [#results] is hidden unless the
    drawing threw. *)
Definition generateRandomMap_page (gridSize : Z) (rnd : nat -> Q) (k : nat)
    (app : App) : App * nat * option error :=
  let '(m, k') := generateRandomMap gridSize rnd k in
  match renderMap m gridSize with
  | (children, None) =>
      ({| currentMap := m; mapGrid := children;
          results := addClass "hidden" (results app);
          buttons := buttons app; alerts := alerts app |}, k', None)
  | (children, Some e) =>
      ({| currentMap := m; mapGrid := children; results := results app;
          buttons := buttons app; alerts := alerts app |}, k', Some e)
  end.

(** The [try] block of [runOptimization]: the run, the animation of its
    routes, and the call of [Visualizer.updateStats]. *)
Definition optimizeAndDraw (fuel : nat) (rnd : nat -> Q)
    (rangerCount maxSteps : Z) (app : App) : App * outcome unit :=
  match runLocalOptimization fuel rnd
          (paramsOf (currentMap app) rangerCount maxSteps) with
  | Returned result =>
      ({| currentMap := currentMap app;
          mapGrid := animateRoutes (routes result) (mapGrid app);
          results := results app; buttons := buttons app;
          alerts := alerts app |},
       if bool_decide ("updateStats"%string ∈ Visualizer_methods)
       then Unmodelled else Thrown TypeError)
  | Thrown e => (app, Thrown e)
  | OutOfFuel => (app, OutOfFuel)
  | Unmodelled => (app, Unmodelled)
  end.

(** [runOptimization]: the guard, then [try], [catch] and [finally]. *)
Definition runOptimization (fuel : nat) (rnd : nat -> Q)
    (rangerCount maxSteps : Z) (app : App) : outcome App :=
  if bool_decide (length (map_riskMap (currentMap app)) = 0%nat) then
    Returned (alert PleaseGenerate app)
  else
    let '(app', r) :=
      optimizeAndDraw fuel rnd rangerCount maxSteps (setLoading true app) in
    match r with
    | Returned _ => Returned (setLoading false app')
    | Thrown e =>
        Returned (setLoading false (alert (OptimizationFailed e) app'))
    | OutOfFuel => OutOfFuel
    | Unmodelled => Unmodelled
    end.

(** The page after a click on the generate button with [patrolMap] drawn,
    and two buttons. *)
Definition patrolApp : App :=
  {| currentMap := patrolMap;
     mapGrid := map (cellElement patrolMap) (cells patrol);
     results := ["hidden"];
     buttons := [{| disabled := false; buttonClasses := ["btn"] |};
                 {| disabled := false;
                    buttonClasses := ["btn"; "btn-primary"] |}];
     alerts := [] |}%string.

Definition patrolApp_after : App :=
  {| currentMap := patrolMap;
     mapGrid := animateRoutes (routes patrol_result) (mapGrid patrolApp);
     results := ["hidden"];
     buttons := buttons patrolApp;
     alerts := [OptimizationFailed TypeError] |}%string.

(** * Properties *)

(** ** Arrays and the coverage counter *)

Lemma at_Some {A} (a : list A) i x :
  at_ a i = Some x <-> 0 <= i /\ a !! Z.to_nat i = Some x.
Proof.
  unfold at_. destruct (decide (0 <= i)); split; try done; tauto.
Qed.

Lemma at_in_range {A} (a : list A) i :
  0 <= i < Z.of_nat (length a) -> is_Some (at_ a i).
Proof.
  intros [Hi Hlt]. unfold at_. rewrite decide_True by done.
  apply lookup_lt_is_Some. lia.
Qed.

Lemma at_lt {A} (a : list A) i x :
  at_ a i = Some x -> 0 <= i < Z.of_nat (length a).
Proof.
  intros [Hi Hl]%at_Some. apply lookup_lt_Some in Hl. lia.
Qed.

Lemma cellAt_Some {A} (m : list (list A)) x v :
  cellAt m x = Some v <->
  exists row, at_ m x.1 = Some row /\ at_ row x.2 = Some v.
Proof.
  unfold cellAt. destruct (at_ m x.1) as [row|]; split.
  - eauto.
  - by intros (? & [= <-] & ?).
  - done.
  - by intros (? & ? & ?).
Qed.

Lemma row_of_Returned {A} (m : list (list A)) r row :
  row_of m r = Returned row <-> at_ m r = Some row.
Proof. unfold row_of. destruct (at_ m r); split; congruence. Qed.

Lemma has_dims_row {A} n (m : list (list A)) r row :
  has_dims n m -> at_ m r = Some row -> length row = Z.to_nat n.
Proof.
  intros [_ Hrows] [_ Hl]%at_Some.
  rewrite Forall_lookup in Hrows. eauto.
Qed.

Lemma has_dims_at {A} n (m : list (list A)) r :
  has_dims n m -> 0 <= r < n -> is_Some (at_ m r).
Proof. intros [Hl _] Hr. apply at_in_range. lia. Qed.

Lemma has_dims_cell {A} n (m : list (list A)) x :
  has_dims n m -> 0 <= x.1 < n -> 0 <= x.2 < n -> is_Some (cellAt m x).
Proof.
  intros Hd Hr Hc. destruct (has_dims_at _ _ x.1 Hd Hr) as [row Hrow].
  pose proof (has_dims_row _ _ _ _ Hd Hrow) as Hlen.
  destruct (at_in_range row x.2) as [v Hv]; [lia|].
  exists v. apply cellAt_Some. eauto.
Qed.

Lemma has_dims_cell_inv {A} n (m : list (list A)) x v :
  has_dims n m -> cellAt m x = Some v -> 0 <= x.1 < n /\ 0 <= x.2 < n.
Proof.
  intros Hd (row & Hrow & Hv)%cellAt_Some.
  pose proof (has_dims_row _ _ _ _ Hd Hrow) as Hlen.
  apply at_lt in Hrow, Hv. destruct Hd as [Hl _]. lia.
Qed.

Lemma bind_Returned {A B} (m : outcome A) (k : A -> outcome B) b :
  bind m k = Returned b <-> exists a, m = Returned a /\ k a = Returned b.
Proof.
  destruct m; simpl; split; try done; try by intros (? & ? & ?).
  - eauto.
  - by intros (? & [= <-] & ?).
Qed.

(** Inversion of a chain of binds that is known to return. *)
Ltac inv_bind_fresh H :=
  let a := fresh "a" in
  let Ha := fresh "H" a in
  apply bind_Returned in H; destruct H as (a & Ha & H).

Tactic Notation "inv_bind" hyp(H) := inv_bind_fresh H.

Tactic Notation "inv_bind" hyp(H) "as" simple_intropattern(a) ident(Ha) :=
  apply bind_Returned in H; destruct H as (a & Ha & H).

Lemma increment_inv (cov cov' : grid) r c :
  increment cov r c = Returned cov' ->
  exists row v,
    0 <= r /\ 0 <= c /\
    cov !! Z.to_nat r = Some row /\ row !! Z.to_nat c = Some v /\
    cov' = <[Z.to_nat r := <[Z.to_nat c := v + 1]> row]> cov.
Proof.
  unfold increment. intros H. inv_bind H.
  apply row_of_Returned, at_Some in Ha as [Hr Hrow].
  destruct (at_ a c) as [v|] eqn:Hv; [|done].
  apply at_Some in Hv as [Hc Hv]. exists a, v.
  by injection H as <-.
Qed.

Lemma increment_cellAt (cov cov' : grid) r c :
  increment cov r c = Returned cov' ->
  exists v, cellAt cov (r, c) = Some v /\
    forall x, cellAt cov' x =
              if decide (x = (r, c)) then Some (v + 1) else cellAt cov x.
Proof.
  intros (row & v & Hr & Hc & Hrow & Hv & ->)%increment_inv.
  exists v. split.
  { apply cellAt_Some. exists row. by rewrite !at_Some. }
  intros [r' c']. unfold cellAt, at_; simpl.
  destruct (decide (0 <= r')) as [Hr'|];
    [|by rewrite decide_False by (intros [=]; lia)].
  destruct (decide (r' = r)) as [->|Hne].
  - rewrite list_lookup_insert_eq by (by eapply lookup_lt_Some).
    destruct (decide (0 <= c')) as [Hc'|];
      [|by rewrite Hrow, decide_False by (intros [=]; lia)].
    destruct (decide (c' = c)) as [->|Hnc].
    + rewrite decide_True by done.
      rewrite list_lookup_insert_eq by (by eapply lookup_lt_Some). done.
    + rewrite decide_False by congruence.
      rewrite list_lookup_insert_ne by lia. by rewrite Hrow.
  - rewrite decide_False by congruence.
    rewrite list_lookup_insert_ne by lia. done.
Qed.

Lemma increment_dims n (cov cov' : grid) r c :
  increment cov r c = Returned cov' -> has_dims n cov -> has_dims n cov'.
Proof.
  intros (row & v & Hr & Hc & Hrow & Hv & ->)%increment_inv [Hl Hrows].
  split; [by rewrite length_insert|].
  apply Forall_insert; [done|]. rewrite length_insert.
  rewrite Forall_lookup in Hrows. eauto.
Qed.

(** ** [getNeighbors] *)

Lemma getNeighbors_from_inv ds row col p acc ns :
  getNeighbors_from ds row col p acc = Returned ns ->
  ns = acc ++ List.filter (openCell p)
                (map (fun d : Z * Z => (row + d.1, col + d.2)) ds).
Proof.
  revert acc. induction ds as [|[dr dc] ds IH]; intros acc H; simpl in *.
  - injection H as <-. by rewrite app_nil_r.
  - unfold openCell at 1, cellAt at 1. simpl.
    destruct (inGrid p (row + dr) (col + dc)); simpl; [|by apply IH].
    inv_bind H. apply row_of_Returned in Ha. rewrite Ha.
    destruct (isOne (at_ a (col + dc))); [|by apply IH].
    apply IH in H. by rewrite <- app_assoc in H.
Qed.

Lemma around_directions row col :
  map (fun d : Z * Z => (row + d.1, col + d.2)) directions = around (row, col).
Proof. unfold around; simpl. repeat f_equal; lia. Qed.

Lemma getNeighbors_inv row col p ns :
  getNeighbors row col p = Returned ns -> ns = candidates p (row, col).
Proof.
  intros H%getNeighbors_from_inv. by rewrite around_directions in H.
Qed.

Lemma inGrid_spec p nr nc :
  inGrid p nr nc = true <-> in_bounds p (nr, nc).
Proof.
  unfold inGrid, in_bounds; simpl.
  rewrite !andb_true_iff, !Z.leb_le, !Z.ltb_lt. tauto.
Qed.

Lemma isOne_spec v : isOne v = true <-> v = Some 1.
Proof. destruct v as [[|[]|]|]; simpl; split; congruence. Qed.

Lemma openCell_spec p x :
  openCell p x = true <-> in_bounds p x /\ passable p x.
Proof.
  unfold openCell, passable. destruct x as [r c].
  by rewrite andb_true_iff, inGrid_spec, isOne_spec.
Qed.

Lemma getNeighbors_from_total ds row col p acc :
  has_dims (gridSize p) (terrainMap p) ->
  exists ns, getNeighbors_from ds row col p acc = Returned ns.
Proof.
  intros Hd. revert acc. induction ds as [|[dr dc] ds IH]; intros acc; simpl.
  - eauto.
  - destruct (inGrid p (row + dr) (col + dc)) eqn:Hin; [|apply IH].
    apply inGrid_spec in Hin as [Hr _]; simpl in Hr.
    destruct (has_dims_at _ _ _ Hd Hr) as [trow Ht].
    unfold row_of. rewrite Ht; simpl.
    destruct (isOne _); apply IH.
Qed.

Lemma getNeighbors_spec row col p :
  has_dims (gridSize p) (terrainMap p) ->
  getNeighbors row col p = Returned (candidates p (row, col)).
Proof.
  intros Hd.
  destruct (getNeighbors_from_total directions row col p [] Hd) as [ns H].
  unfold getNeighbors. rewrite H. f_equal. by apply getNeighbors_inv.
Qed.

Lemma candidates_open p x y :
  y ∈ candidates p x -> in_bounds p y /\ passable p y.
Proof.
  unfold candidates. rewrite list_elem_of_In, filter_In.
  intros [_ H]. by apply openCell_spec.
Qed.

Lemma candidates_adjacent p x y : y ∈ candidates p x -> adjacent x y.
Proof.
  unfold candidates. rewrite list_elem_of_In, filter_In.
  intros [Hy _]. unfold around in Hy. simpl in Hy. unfold adjacent.
  destruct Hy as [<-|[<-|[<-|[<-|[]]]]]; simpl; lia.
Qed.

(** ** Scoring *)

Lemma qsign_pos q : (0 < q)%Q -> qsign q = Gt.
Proof. intros H. unfold qsign. by apply Qgt_alt. Qed.

Lemma jdiv_pos a b : (0 < b)%Q -> jdiv (Fin a) (Fin b) = Fin (a / b).
Proof. intros H. simpl. by rewrite qsign_pos. Qed.

Lemma counter_pos v : 0 <= v -> (0 < inject_Z v + 1)%Q.
Proof.
  intros H. unfold Qlt; simpl. lia.
Qed.

Lemma coverage_ok_cell p cov x v :
  coverage_ok p cov -> cellAt cov x = Some v -> 0 <= v.
Proof.
  intros [_ Hnn] (row & [_ Hrow]%at_Some & [_ Hv]%at_Some)%cellAt_Some.
  rewrite Forall_lookup in Hnn. specialize (Hnn _ _ Hrow).
  rewrite Forall_lookup in Hnn. eauto.
Qed.

(** On a grid of the right dimensions the score computed by the code is
    the finite number the specification gives. *)
Lemma scoreOf_spec p cov nr nc :
  dims_ok p -> coverage_ok p cov -> in_bounds p (nr, nc) ->
  scoreOf p cov nr nc = Returned (Fin (score p cov (nr, nc))).
Proof.
  intros (Hrisk & Hanimal & _) Hok [Hr Hc]. set (x := (nr, nc)).
  pose proof Hok as [Hcov _].
  destruct (has_dims_cell _ _ x Hrisk Hr Hc) as [q Hq].
  destruct (has_dims_cell _ _ x Hanimal Hr Hc) as [b Hb].
  destruct (has_dims_cell _ _ x Hcov Hr Hc) as [v Hv].
  unfold score, riskOf, animalOf, coverageOf. rewrite Hq, Hb, Hv; simpl.
  apply cellAt_Some in Hq as (qrow & Hq1 & Hq2).
  apply cellAt_Some in Hb as (brow & Hb1 & Hb2).
  pose proof (coverage_ok_cell _ _ _ _ Hok Hv) as Hv0.
  apply cellAt_Some in Hv as (vrow & Hv1 & Hv2).
  unfold scoreOf, riskAt, animalAt, visitedAt, row_of.
  simpl in *. rewrite Hq1, Hb1, Hv1; simpl. rewrite Hq2, Hb2, Hv2.
  f_equal. unfold of_Z.
  destruct b; cbn [jmul jadd]; by rewrite jdiv_pos by by apply counter_pos.
Qed.

Lemma jgt_Fin a b : jgt (Fin a) (Fin b) = true <-> (b < a)%Q.
Proof.
  simpl. rewrite Qgt_alt. destruct (a ?= b)%Q; split; congruence.
Qed.

Lemma jgt_Fin_false a b : jgt (Fin a) (Fin b) = false <-> (a <= b)%Q.
Proof.
  simpl. rewrite Qle_alt. destruct (a ?= b)%Q; split; congruence.
Qed.

Section ScoreLoop.
Variables (p : Params) (cov : grid).
Hypothesis Hdims : dims_ok p.
Hypothesis Hcov : coverage_ok p cov.

Lemma first_max_snoc_keep seen i b x :
  first_max (score p cov) seen i b -> (score p cov x <= score p cov b)%Q ->
  first_max (score p cov) (seen ++ [x]) i b.
Proof.
  intros (Hi & Hmax & Hfirst) Hx. split; [|split].
  - by apply lookup_app_l_Some.
  - intros j y [Hj|[_ Hj]]%lookup_app_Some; [eauto|].
    apply list_lookup_singleton_Some in Hj as [_ <-]. done.
  - intros j y Hlt [Hj|[Hge _]]%lookup_app_Some; [eauto|].
    apply lookup_lt_Some in Hi. lia.
Qed.

Lemma first_max_snoc_new seen i b x :
  first_max (score p cov) seen i b -> (score p cov b < score p cov x)%Q ->
  first_max (score p cov) (seen ++ [x]) (length seen) x.
Proof.
  intros (Hi & Hmax & Hfirst) Hx. split; [|split].
  - by rewrite lookup_app_r, Nat.sub_diag.
  - intros j y [Hj|[_ Hj]]%lookup_app_Some.
    + apply Qlt_le_weak. eapply Qle_lt_trans; eauto.
    + apply list_lookup_singleton_Some in Hj as [_ <-]. apply Qle_refl.
  - intros j y Hlt [Hj|[Hge _]]%lookup_app_Some; [|lia].
    eapply Qle_lt_trans; eauto.
Qed.

(** The scoring loop, once a first candidate has been recorded. *)
Lemma scoreLoop_acc rest : forall seen i b,
  Forall (in_bounds p) rest ->
  first_max (score p cov) seen i b ->
  exists i' best,
    scoreLoop p cov rest b (Fin (score p cov b)) = Returned best /\
    first_max (score p cov) (seen ++ rest) i' best.
Proof.
  induction rest as [|[nr nc] rest IH]; intros seen i b Hin Hfm;
    cbn [scoreLoop].
  - exists i, b. by rewrite app_nil_r.
  - apply Forall_cons in Hin as [Hx Hin].
    rewrite (scoreOf_spec p cov nr nc) by done. cbn [bind].
    rewrite (cons_middle _ seen rest), app_assoc.
    destruct (jgt (Fin (score p cov (nr, nc))) (Fin (score p cov b))) eqn:Hgt.
    + apply jgt_Fin in Hgt. eapply IH; [done|].
      by eapply first_max_snoc_new.
    + apply jgt_Fin_false in Hgt. eapply IH; [done|].
      by apply first_max_snoc_keep.
Qed.

(** From [bestScore = -Infinity] the loop returns the first maximum. *)
Lemma scoreLoop_first_max ns first :
  Forall (in_bounds p) ns -> ns !! 0%nat = Some first ->
  exists i best,
    scoreLoop p cov ns first NInf = Returned best /\
    first_max (score p cov) ns i best.
Proof.
  destruct ns as [|[nr nc] rest]; [done|]. intros Hin [= <-].
  apply Forall_cons in Hin as [Hx Hin]. cbn [scoreLoop].
  rewrite (scoreOf_spec p cov nr nc) by done. cbn [bind jgt].
  apply (scoreLoop_acc rest [(nr, nc)] 0%nat); [done|].
  split; [done|]. split.
  - intros j y [_ <-]%list_lookup_singleton_Some. apply Qle_refl.
  - intros j y Hj. lia.
Qed.
End ScoreLoop.

Lemma increment_total n (cov : grid) r c :
  has_dims n cov -> 0 <= r < n -> 0 <= c < n ->
  exists cov', increment cov r c = Returned cov'.
Proof.
  intros Hd Hr Hc.
  destruct (has_dims_cell _ _ (r, c) Hd Hr Hc) as [v Hv].
  apply cellAt_Some in Hv as (row & Hrow & Hv); simpl in *.
  unfold increment, row_of. rewrite Hrow; simpl. rewrite Hv. eauto.
Qed.



(** The four neighbours of the centre all score 0: the walk goes up. *)
Example walkStep_tie_goes_up :
  walkStep centre3 (replicate 3 (replicate 3 0)) 1 1
  = Returned (Some ((0, 1), [[0; 1; 0]; [0; 0; 0]; [0; 0; 0]])).
Proof. reflexivity. Qed.

(** ** The walk *)

Lemma scoreLoop_In p cov ns b s best :
  scoreLoop p cov ns b s = Returned best -> best = b \/ best ∈ ns.
Proof.
  revert b s. induction ns as [|[nr nc] ns IH]; intros b s H; simpl in H.
  - injection H as <-. by left.
  - inv_bind H. destruct (jgt a s); apply IH in H as [->|H].
    + right. left.
    + right. by right.
    + by left.
    + right. by right.
Qed.

Lemma walkStep_inv p cov row col best cov' :
  walkStep p cov row col = Returned (Some (best, cov')) ->
  best ∈ candidates p (row, col) /\
  increment cov best.1 best.2 = Returned cov'.
Proof.
  unfold walkStep. intros H. inv_bind H.
  apply getNeighbors_inv in Ha as ->.
  destruct (candidates p (row, col)) as [|first rest] eqn:Hc; [done|].
  inv_bind H as b Hb. inv_bind H as cov1 Hinc. injection H as <- <-.
  split; [|done]. apply scoreLoop_In in Hb as [->|Hb]; [left|done].
Qed.

Lemma occurrences_app x l1 l2 :
  occurrences x (l1 ++ l2) = occurrences x l1 + occurrences x l2.
Proof. induction l1 as [|y l1 IH]; simpl; [done|]. rewrite IH. lia. Qed.

Lemma occurrences_nonneg x l : 0 <= occurrences x l.
Proof. induction l as [|y l IH]; simpl; [done|]. case_decide; lia. Qed.

Lemma visits_app x rs1 rs2 : visits x (rs1 ++ rs2) = visits x rs1 + visits x rs2.
Proof. induction rs1 as [|rt rs1 IH]; simpl; [done|]. rewrite IH. lia. Qed.

Lemma visits_nonneg x rs : 0 <= visits x rs.
Proof.
  induction rs as [|rt rs IH]; simpl; [done|].
  pose proof (occurrences_nonneg x (path rt)). lia.
Qed.

(** A counter after [coverage[r][c]++]: the visited cell gains one, the
    others keep their value. *)
Lemma increment_counts (cov cov' : grid) r c :
  increment cov r c = Returned cov' ->
  forall x, cellAt cov' x
            = (fun v => v + occurrences x [(r, c)]) <$> cellAt cov x.
Proof.
  intros (v & Hv & Hall)%increment_cellAt x. rewrite Hall. simpl.
  destruct (decide (x = (r, c))) as [->|Hne].
  - rewrite decide_True by done. rewrite Hv. simpl. f_equal; lia.
  - rewrite decide_False by congruence.
    destruct (cellAt cov x); simpl; [f_equal; lia|done].
Qed.

Lemma counts_none (cov : grid) x :
  cellAt cov x = (fun v => v + occurrences x []) <$> cellAt cov x.
Proof. destruct (cellAt cov x); simpl; [f_equal; lia|done]. Qed.

(** The walk only appends to the path, by a chain of candidates no longer
    than the number of iterations, and the coverage grows by exactly the
    cells appended. *)
Lemma walk_inv p steps : forall row col path cov path' cov',
  walk steps p row col path cov = Returned (path', cov') ->
  exists ext,
    path' = path ++ ext /\
    (length ext <= steps)%nat /\
    chain p (row, col) ext /\
    (forall x, cellAt cov' x
               = (fun v => v + occurrences x ext) <$> cellAt cov x) /\
    (forall n, has_dims n cov -> has_dims n cov').
Proof.
  induction steps as [|steps IH]; intros row col path cov path' cov' H;
    cbn [walk] in H.
  - injection H as <- <-. exists []. rewrite app_nil_r.
    split_and!; try done. apply counts_none.
  - inv_bind H. destruct a as [[best cov1]|].
    + apply walkStep_inv in Ha as [Hbest Hinc].
      apply IH in H as (ext & -> & Hlen & Hchain & Hcount & Hd).
      destruct best as [r c]; simpl in *.
      exists ((r, c) :: ext). rewrite <- app_assoc. split_and!; simpl.
      * done.
      * lia.
      * done.
      * intros x.
        rewrite Hcount, (increment_counts _ _ _ _ Hinc x). simpl.
        destruct (cellAt cov x); simpl; [f_equal; lia|done].
      * intros n Hn. apply Hd. by eapply increment_dims.
    + injection H as <- <-. exists []. rewrite app_nil_r.
      split_and!; try done; simpl; [lia|]. apply counts_none.
Qed.

(** ** Route generation *)

Lemma findStart_inv fuel rnd p : forall k start k',
  findStart fuel rnd k p = Returned (start, k') ->
  isZero (cellAt (terrainMap p) start) = false /\ (k < k')%nat.
Proof.
  induction fuel as [|fuel IH]; intros k start k' H; cbn [findStart] in H;
    [done|].
  inv_bind H as trow Hrow. apply row_of_Returned in Hrow.
  destruct (isZero (at_ trow _)) eqn:Hz.
  - apply IH in H as [? ?]. split; [done|lia].
  - injection H as <- <-. split; [|lia].
    unfold cellAt; simpl. by rewrite Hrow.
Qed.

Lemma ranger_inv fuel rnd p r routes cov k routes' cov' k' :
  has_dims (gridSize p) cov ->
  ranger fuel rnd p r (routes, cov, k) = Returned (routes', cov', k') ->
  exists rt,
    routes' = routes ++ [rt] /\
    rangerId rt = r /\
    route_ok p rt /\
    (forall x, cellAt cov' x
               = (fun v => v + occurrences x (path rt)) <$> cellAt cov x) /\
    has_dims (gridSize p) cov'.
Proof.
  intros Hd H. unfold ranger in H.
  inv_bind H as [[sr sc] k1] Hstart. inv_bind H as cov1 Hinc.
  inv_bind H as [path' cov2] Hwalk. injection H as <- <- <-.
  simpl in *.
  apply findStart_inv in Hstart as [Hz _].
  apply walk_inv in Hwalk as (ext & -> & Hlen & Hchain & Hcount & Hd').
  exists {| rangerId := r; path := (sr, sc) :: ext |}. split_and!; try done.
  - exists (sr, sc), ext. split_and!; try done.
    destruct (increment_cellAt _ _ _ _ Hinc) as (v & Hv & _).
    by eapply has_dims_cell_inv.
  - intros x. rewrite Hcount, (increment_counts _ _ _ _ Hinc x). simpl.
    destruct (cellAt cov x); simpl; [f_equal; lia|done].
  - apply Hd'. by eapply increment_dims.
Qed.

(** The loop over the rangers appends one route per iteration, numbered
    from the loop counter on, and the coverage grows by the visits of the
    routes appended. *)
Lemma rangers_inv fuel rnd p n : forall i routes cov k routes' cov' k',
  has_dims (gridSize p) cov ->
  for_ n i (ranger fuel rnd p) (routes, cov, k)
    = Returned (routes', cov', k') ->
  exists new,
    routes' = routes ++ new /\
    map rangerId new = seqZ i (Z.of_nat n) /\
    Forall (route_ok p) new /\
    (forall x, cellAt cov' x
               = (fun v => v + visits x new) <$> cellAt cov x) /\
    has_dims (gridSize p) cov'.
Proof.
  induction n as [|n IH]; intros i routes cov k routes' cov' k' Hd H;
    cbn [for_] in H.
  - injection H as <- <- <-. exists []. rewrite app_nil_r.
    split_and!; try done. intros x. apply counts_none.
  - inv_bind H as [[routes1 cov1] k1] Hr.
    apply ranger_inv in Hr as (rt & -> & Hid & Hok & Hcount & Hd1); [|done].
    apply IH in H as (new & -> & Hids & Hoks & Hcounts & Hd2); [|done].
    exists (rt :: new). rewrite <- app_assoc. split_and!; try done.
    + rewrite seqZ_cons by lia. simpl. rewrite Hid. f_equal.
      rewrite Hids. f_equal; lia.
    + by constructor.
    + intros x. rewrite Hcounts, Hcount. simpl.
      destruct (cellAt cov x); simpl; [f_equal; lia|done].
Qed.

Lemma mapM_const {A B} (y : B) (l : list A) :
  mapM (fun _ => Returned y) l = Returned (replicate (length l) y).
Proof. induction l as [|x l IH]; simpl; [done|]. by rewrite IH. Qed.

Lemma newArray_ok {A} n (x : A) :
  0 <= n < 2 ^ 32 -> newArray n x = Returned (replicate (Z.to_nat n) x).
Proof. intros Hn. unfold newArray. by rewrite decide_True. Qed.

Lemma newArray_bad {A} n (x : A) :
  ~ 0 <= n < 2 ^ 32 -> newArray n x = Thrown RangeError.
Proof. intros Hn. unfold newArray. by rewrite decide_False. Qed.

Lemma newCoverage_ok n :
  0 <= n < 2 ^ 32 ->
  newCoverage n = Returned (replicate (Z.to_nat n) (replicate (Z.to_nat n) 0)).
Proof.
  intros Hn. unfold newCoverage. rewrite !newArray_ok by done.
  cbn [bind]. by rewrite mapM_const, length_replicate.
Qed.

Lemma newCoverage_bad n :
  ~ 0 <= n < 2 ^ 32 -> newCoverage n = Thrown RangeError.
Proof. intros Hn. unfold newCoverage. by rewrite newArray_bad. Qed.

Lemma newCoverage_inv n cov :
  newCoverage n = Returned cov ->
  0 <= n < 2 ^ 32 /\
  cov = replicate (Z.to_nat n) (replicate (Z.to_nat n) 0).
Proof.
  destruct (decide (0 <= n < 2 ^ 32)) as [Hn|Hn].
  - rewrite newCoverage_ok by done. by intros [= <-].
  - by rewrite newCoverage_bad.
Qed.

Lemma zero_grid_dims n :
  has_dims n (replicate (Z.to_nat n) (replicate (Z.to_nat n) 0)).
Proof.
  split; [by rewrite length_replicate|].
  apply Forall_replicate. by rewrite length_replicate.
Qed.

Lemma zero_grid_cell n x v :
  cellAt (replicate (Z.to_nat n) (replicate (Z.to_nat n) 0)) x = Some v ->
  v = 0.
Proof.
  intros (row & [_ Hrow]%at_Some & [_ Hv]%at_Some)%cellAt_Some.
  apply lookup_replicate in Hrow as [-> _].
  by apply lookup_replicate in Hv as [-> _].
Qed.

(** A run that returns went through the three phases of the function. *)
Lemma run_inv fuel rnd p res :
  runLocalOptimization fuel rnd p = Returned res ->
  exists k,
    0 <= gridSize p < 2 ^ 32 /\
    generateRoutes fuel rnd p
      (replicate (Z.to_nat (gridSize p)) (replicate (Z.to_nat (gridSize p)) 0))
      = Returned (routes res, coverage res, k) /\
    computeStats p (coverage res) = Returned (stats res).
Proof.
  unfold runLocalOptimization. intros H.
  inv_bind H as cov0 Hcov. apply newCoverage_inv in Hcov as [Hn ->].
  inv_bind H as [[rs cov] k] Hgen. inv_bind H as st Hst.
  injection H as <-. simpl in *. eauto.
Qed.

(** What a returned run says about its routes and its coverage grid. *)
Lemma run_routes fuel rnd p res :
  runLocalOptimization fuel rnd p = Returned res ->
  map rangerId (routes res) = seqZ 0 (Z.of_nat (Z.to_nat (rangerCount p))) /\
  Forall (route_ok p) (routes res) /\
  has_dims (gridSize p) (coverage res) /\
  forall x, in_bounds p x ->
            cellAt (coverage res) x = Some (visits x (routes res)).
Proof.
  intros (k & Hn & Hgen & _)%run_inv. unfold generateRoutes in Hgen.
  apply rangers_inv in Hgen as (new & Hnew & Hids & Hoks & Hcount & Hd);
    [|apply zero_grid_dims].
  simpl in Hnew. subst new. split_and!; try done.
  intros x [Hr Hc]. rewrite Hcount.
  destruct (has_dims_cell _ _ x (zero_grid_dims (gridSize p)) Hr Hc)
    as [v Hv].
  rewrite Hv. apply zero_grid_cell in Hv as ->. done.
Qed.

Lemma chain_cells p ext : forall x,
  chain p x ext -> Forall (fun y => in_bounds p y /\ passable p y) ext.
Proof.
  induction ext as [|y ext IH]; intros x H; simpl in H; [done|].
  destruct H as [Hy H]. constructor; [by eapply candidates_open|by eapply IH].
Qed.

Lemma chain_connected p ext : forall x, chain p x ext -> connected (x :: ext).
Proof.
  induction ext as [|y ext IH]; intros x H i a b Ha Hb; simpl in H.
  - by destruct i.
  - destruct H as [Hy H]. destruct i as [|i]; simpl in *.
    + injection Ha as <-. injection Hb as <-. by eapply candidates_adjacent.
    + by eapply (IH y H i).
Qed.

(** A start cell accepted by the start selection is passable as soon as the
    terrain holds only the flags 0 and 1. *)
Lemma start_passable p start :
  terrain_flags p -> in_bounds p start ->
  isZero (cellAt (terrainMap p) start) = false -> passable p start.
Proof.
  intros Hflags Hin Hz. destruct (Hflags _ Hin) as [H|H]; [|done].
  by rewrite H in Hz.
Qed.

(** C2. On a terrain of flags 0 and 1, every cell of every returned route
    lies inside the grid on a passable cell, and consecutive cells of a path
    are one orthogonal unit step apart. *)
Theorem routes_in_bounds_passable_connected fuel rnd p res :
  terrain_flags p ->
  runLocalOptimization fuel rnd p = Returned res ->
  forall rt, rt ∈ routes res ->
    Forall (fun x => (0 <= x.1 < gridSize p /\ 0 <= x.2 < gridSize p) /\
                     cellAt (terrainMap p) x = Some 1) (path rt) /\
    forall i a b, path rt !! i = Some a -> path rt !! S i = Some b ->
      (a.1 = b.1 /\ Z.abs (a.2 - b.2) = 1) \/
      (a.2 = b.2 /\ Z.abs (a.1 - b.1) = 1).
Proof.
  intros Hflags (_ & Hoks & _)%run_routes rt Hrt.
  rewrite Forall_forall in Hoks.
  destruct (Hoks _ Hrt) as (start & ext & -> & Hin & Hz & Hchain & _).
  split.
  - constructor; [|by eapply chain_cells].
    split; [done|]. by apply start_passable.
  - by apply (chain_connected p ext start).
Qed.

(** C3. The returned coverage grid has the side [gridSize]; each of its
    counters equals the number of (route, step index) pairs of the returned
    routes that hold its cell; no counter is negative; and the one
    operation that writes the grid during the computation, the increment,
    never lowers a counter. *)
Theorem coverage_counts_visits fuel rnd p res :
  runLocalOptimization fuel rnd p = Returned res ->
  has_dims (gridSize p) (coverage res) /\
  (forall r c, 0 <= r < gridSize p -> 0 <= c < gridSize p ->
     cellAt (coverage res) (r, c) = Some (visits (r, c) (routes res))) /\
  Forall (Forall (fun v => 0 <= v)) (coverage res) /\
  (forall (cov cov' : grid) r c x v,
     increment cov r c = Returned cov' -> cellAt cov x = Some v ->
     exists v', cellAt cov' x = Some v' /\ v <= v').
Proof.
  intros (_ & _ & Hd & Hcount)%run_routes. split_and!.
  - done.
  - intros r c Hr Hc. by apply Hcount.
  - apply Forall_lookup. intros i row Hrow.
    apply Forall_lookup. intros j v Hv.
    assert (cellAt (coverage res) (Z.of_nat i, Z.of_nat j) = Some v) as Hcell.
    { apply cellAt_Some. exists row. simpl.
      rewrite !at_Some, !Nat2Z.id. split_and!; try done; lia. }
    pose proof (has_dims_cell_inv _ _ _ _ Hd Hcell) as [Hr Hc].
    rewrite Hcount in Hcell by done. injection Hcell as <-.
    apply visits_nonneg.
  - intros cov cov' r c x v Hinc Hv.
    rewrite (increment_counts _ _ _ _ Hinc x), Hv. simpl.
    eexists. split; [done|]. case_decide; lia.
Qed.

(** C5. With positive [rangerCount] and [maxSteps], the returned list has
    [rangerCount] routes, numbered 0, 1, ... in order; each path has between
    1 and [maxSteps] cells; and for [maxSteps = 1] each path is the single
    start cell. *)
Theorem routes_count_ids_lengths fuel rnd p res :
  0 < rangerCount p -> 0 < maxSteps p ->
  runLocalOptimization fuel rnd p = Returned res ->
  Z.of_nat (length (routes res)) = rangerCount p /\
  map rangerId (routes res) = seqZ 0 (rangerCount p) /\
  Forall (fun rt => 1 <= Z.of_nat (length (path rt)) <= maxSteps p)
         (routes res) /\
  (maxSteps p = 1 ->
   Forall (fun rt => exists start,
             path rt = [start] /\ in_bounds p start /\
             isZero (cellAt (terrainMap p) start) = false) (routes res)).
Proof.
  intros Hrc Hms (Hids & Hoks & _)%run_routes.
  rewrite Z2Nat.id in Hids by lia. split_and!.
  - rewrite <- (length_map rangerId), Hids, length_seqZ. lia.
  - done.
  - eapply Forall_impl; [exact Hoks|].
    intros rt (start & ext & -> & _ & _ & _ & Hlen). simpl. lia.
  - intros Hone. eapply Forall_impl; [exact Hoks|].
    intros rt (start & ext & -> & Hin & Hz & _ & Hlen).
    rewrite Hone in Hlen. destruct ext; [|simpl in Hlen; lia]. eauto.
Qed.

(** ** Sample runs, evaluated *)

Lemma corridor_run :
  runLocalOptimization 1 zeros corridor = Returned corridor_result.
Proof. reflexivity. Qed.

Lemma patrol_run :
  runLocalOptimization 2 draws patrol = Returned patrol_result.
Proof. reflexivity. Qed.

(** With a single unit of fuel the retry of the second start is cut. *)
Lemma patrol_run_short : runLocalOptimization 1 draws patrol = OutOfFuel.
Proof. reflexivity. Qed.

Lemma terrain_flags_of_grid p :
  has_dims (gridSize p) (terrainMap p) ->
  Forall (Forall (fun v => v = 0 \/ v = 1)) (terrainMap p) ->
  terrain_flags p.
Proof.
  intros Hd Hall x [Hr Hc].
  destruct (has_dims_cell _ _ x Hd Hr Hc) as [v Hv]. rewrite Hv.
  apply cellAt_Some in Hv as (row & [_ Hrow]%at_Some & [_ Hv]%at_Some).
  rewrite Forall_lookup in Hall. specialize (Hall _ _ Hrow).
  rewrite Forall_lookup in Hall. destruct (Hall _ _ Hv) as [->| ->]; eauto.
Qed.

Lemma patrol_flags : terrain_flags patrol.
Proof.
  apply terrain_flags_of_grid; [split; [done|repeat constructor]|].
  repeat first [apply Forall_nil_2 | apply Forall_cons_2]; lia.
Qed.

Lemma routes_in_bounds_passable_connected_witness :
  Forall (fun rt =>
    Forall (fun x => (0 <= x.1 < 3 /\ 0 <= x.2 < 3) /\
                     cellAt (terrainMap patrol) x = Some 1) (path rt) /\
    forall i a b, path rt !! i = Some a -> path rt !! S i = Some b ->
      (a.1 = b.1 /\ Z.abs (a.2 - b.2) = 1) \/
      (a.2 = b.2 /\ Z.abs (a.1 - b.1) = 1)) (routes patrol_result).
Proof.
  apply Forall_forall.
  apply (routes_in_bounds_passable_connected 2 draws patrol patrol_result).
  - exact patrol_flags.
  - reflexivity.
Defined.

Lemma coverage_counts_visits_witness :
  has_dims 3 (coverage patrol_result) /\
  (forall r c, 0 <= r < 3 -> 0 <= c < 3 ->
     cellAt (coverage patrol_result) (r, c)
     = Some (visits (r, c) (routes patrol_result))) /\
  Forall (Forall (fun v => 0 <= v)) (coverage patrol_result) /\
  (forall (cov cov' : grid) r c x v,
     increment cov r c = Returned cov' -> cellAt cov x = Some v ->
     exists v', cellAt cov' x = Some v' /\ v <= v').
Proof.
  apply (coverage_counts_visits 2 draws patrol patrol_result). reflexivity.
Defined.

Lemma routes_count_ids_lengths_witness :
  Z.of_nat (length (routes patrol_result)) = 2 /\
  map rangerId (routes patrol_result) = seqZ 0 2 /\
  Forall (fun rt => 1 <= Z.of_nat (length (path rt)) <= 4)
         (routes patrol_result) /\
  (maxSteps patrol = 1 ->
   Forall (fun rt => exists start,
             path rt = [start] /\ in_bounds patrol start /\
             isZero (cellAt (terrainMap patrol) start) = false)
          (routes patrol_result)).
Proof.
  apply (routes_count_ids_lengths 2 draws patrol patrol_result).
  - reflexivity.
  - reflexivity.
  - reflexivity.
Defined.

(** ** Revisits *)

Lemma corridor_valid : valid_params corridor.
Proof.
  unfold valid_params, dims_ok, has_dims; simpl.
  split_and!; try done; repeat first [apply Forall_nil_2 | apply Forall_cons_2];
    try done; try lia; try (split; discriminate).
Qed.

Lemma zeros_unit : unit_source zeros.
Proof. intros k. split; [apply Qle_refl|reflexivity]. Qed.

(** C10. Routes need not be simple paths: on the valid two by two input
    whose top row is a passable corridor, with [maxSteps = 3], the returned
    route comes back to its start cell. *)
Theorem routes_may_revisit :
  exists fuel rnd p res,
    valid_params p /\ unit_source rnd /\
    runLocalOptimization fuel rnd p = Returned res /\
    exists rt, rt ∈ routes res /\ ~ NoDup (path rt).
Proof.
  exists 1%nat, zeros, corridor, corridor_result.
  split_and!; [apply corridor_valid|apply zeros_unit|reflexivity|].
  eexists. split; [left|]. simpl.
  intros Hnd. apply NoDup_cons in Hnd as [Hin _].
  apply Hin. right. left.
Qed.

(** ** Start selection on a grid without passable cell *)

Lemma randomIndex_range p x :
  0 < gridSize p -> (0 <= x < 1)%Q -> 0 <= randomIndex p x < gridSize p.
Proof.
  intros Hgs [H0 H1]. unfold randomIndex.
  set (g := inject_Z (gridSize p)).
  assert (0 < g)%Q as Hg by (unfold g, Qlt; simpl; lia).
  split.
  - rewrite <- (Qfloor_Z 0). apply Qfloor_resp_le.
    apply Qmult_le_0_compat; [done|by apply Qlt_le_weak].
  - rewrite Zlt_Qlt. eapply Qle_lt_trans; [apply Qfloor_le|].
    fold g. rewrite <- (Qmult_1_l g) at 2.
    by apply Qmult_lt_compat_r.
Qed.

Lemma findStart_never fuel rnd p : forall k,
  all_impassable p -> 0 < gridSize p -> unit_source rnd ->
  findStart fuel rnd k p = OutOfFuel.
Proof.
  induction fuel as [|fuel IH]; intros k Hall Hgs Hrnd; cbn [findStart];
    [done|].
  pose proof (randomIndex_range p (rnd k) Hgs (Hrnd k)) as Hr.
  pose proof (randomIndex_range p (rnd (S k)) Hgs (Hrnd (S k))) as Hc.
  pose proof (Hall (randomIndex p (rnd k), randomIndex p (rnd (S k)))
                (conj Hr Hc)) as Hcell.
  apply cellAt_Some in Hcell as (trow & Hrow & Hv); simpl in *.
  unfold row_of. rewrite Hrow. cbn [bind]. rewrite Hv. simpl. by apply IH.
Qed.

(** C6 (what the code does). On a grid of positive side without any
    passable cell, with at least one ranger and a random source in [0, 1),
    no amount of fuel lets the run return or fail: the start selection
    retries for ever. *)
Theorem no_passable_cell_never_returns fuel rnd p :
  all_impassable p -> 0 < gridSize p < 2 ^ 32 -> 0 < rangerCount p ->
  unit_source rnd ->
  runLocalOptimization fuel rnd p = OutOfFuel.
Proof.
  intros Hall Hgs Hrc Hrnd. unfold runLocalOptimization.
  rewrite newCoverage_ok by lia. cbn [bind]. unfold generateRoutes.
  destruct (Z.to_nat (rangerCount p)) as [|n] eqn:Hn; [lia|].
  cbn [for_]. unfold ranger at 1.
  by rewrite findStart_never by (done || lia).
Qed.

Lemma walled_impassable : all_impassable walled.
Proof.
  intros [r c] [Hr Hc]; simpl in *.
  assert (r = 0) as -> by lia. assert (c = 0) as -> by lia. done.
Qed.

Lemma no_passable_cell_never_returns_witness :
  runLocalOptimization 1000 zeros walled = OutOfFuel.
Proof.
  apply (no_passable_cell_never_returns 1000 zeros walled).
  - exact walled_impassable.
  - simpl. lia.
  - simpl. lia.
  - exact zeros_unit.
Defined.

(** ** The degenerate baseline *)

Lemma calm_run : runLocalOptimization 1 zeros calm = Returned calm_result.
Proof. reflexivity. Qed.

Lemma toFixed_inv x s :
  toFixed x = Returned s -> toFixed0 x = Some s.
Proof. unfold toFixed. destruct (toFixed0 x); congruence. Qed.

Lemma qsign_zero q : (q == 0)%Q -> qsign q = Eq.
Proof. intros H. unfold qsign. by apply Qeq_alt. Qed.

(** Dividing by a zero baseline never yields a finite number. *)
Lemma jdiv_zero x b :
  (b == 0)%Q ->
  jdiv x (Fin b) = NaN \/ jdiv x (Fin b) = PInf \/ jdiv x (Fin b) = NInf.
Proof.
  intros Hb. destruct x as [a| | |]; simpl; rewrite ?(qsign_zero b Hb); auto.
  destruct (qsign a); auto.
Qed.

Lemma finishStats_inv p a st :
  finishStats p a = Returned st ->
  let before := jdiv (totalRisk a) (of_Z (gridSize p * gridSize p)) in
  let after := jdiv (coveredRisk a) (of_Z (gridSize p * gridSize p)) in
  beforeRisk st = before /\ afterRisk st = after /\
  exists reduction,
    toFixed0 (percent (jdiv (jsub before after) before)) = Some reduction /\
    riskReduction st = (reduction ++ "%")%string.
Proof.
  unfold finishStats. intros H. inv_bind H as reduction Hred.
  inv_bind H as high Hhigh. injection H as <-. simpl.
  apply toFixed_inv in Hred. eauto.
Qed.

(** C7 (what the code does). Whenever a run returns with a baseline
    [beforeRisk] equal to 0, the division by the baseline is not guarded:
    the reported [riskReduction] is never the string of the policy, and it
    is the string built from [NaN] as soon as [afterRisk] is 0 as well,
    which is the case when no cell carries any risk. *)
Theorem zero_baseline_reports_NaN fuel rnd p res :
  runLocalOptimization fuel rnd p = Returned res ->
  jeq (beforeRisk (stats res)) (Fin 0) ->
  riskReduction (stats res) <> "0%"%string /\
  (jeq (afterRisk (stats res)) (Fin 0) ->
   riskReduction (stats res) = "NaN%"%string).
Proof.
  intros (k & _ & _ & Hst)%run_inv. unfold computeStats in Hst.
  inv_bind Hst as a Ha.
  apply finishStats_inv in Hst as (Hb & Haft & red & Hred & Hrr).
  cbv zeta in *. rewrite Hrr, Hb, Haft. clear Hrr Hb Haft.
  set (before := jdiv (totalRisk a) _) in *.
  set (after := jdiv (coveredRisk a) _) in *.
  intros Hzero. destruct before as [b| | |]; try done. simpl in Hzero.
  split.
  - destruct (jdiv_zero (jsub (Fin b) after) b Hzero) as [H|[H|H]];
      rewrite H in Hred; injection Hred as <-; discriminate.
  - destruct after as [c| | |]; try done. simpl. intros Hc.
    revert Hred. simpl. rewrite (qsign_zero b Hzero).
    rewrite qsign_zero; [by intros [= <-]|].
    by rewrite Hzero, Hc.
Qed.

Lemma zero_baseline_reports_NaN_witness :
  riskReduction (stats calm_result) <> "0%"%string /\
  (jeq (afterRisk (stats calm_result)) (Fin 0) ->
   riskReduction (stats calm_result) = "NaN%"%string).
Proof.
  apply (zero_baseline_reports_NaN 1 zeros calm calm_result).
  - reflexivity.
  - reflexivity.
Defined.

(** ** Determinism *)



Section TwoRuns.
Variables (rnd1 rnd2 : nat -> Q) (p : Params).
Hypothesis Hrnd : forall k, (rnd1 k == rnd2 k)%Q.




End TwoRuns.



(** ** The statistics loops *)

Lemma riskAt_spec p r c :
  has_dims (gridSize p) (riskMap p) -> in_bounds p (r, c) ->
  riskAt p r c = Returned (Fin (riskOf p (r, c))).
Proof.
  intros Hd [Hr Hc]. destruct (has_dims_cell _ _ (r, c) Hd Hr Hc) as [q Hq].
  unfold riskOf. rewrite Hq. simpl.
  apply cellAt_Some in Hq as (row & Hrow & Hq); simpl in *.
  unfold riskAt, row_of. rewrite Hrow. simpl. by rewrite Hq.
Qed.

Lemma coveredAt_spec n (cov : grid) r c :
  has_dims n cov -> 0 <= r < n -> 0 <= c < n ->
  coveredAt cov r c = Returned (isCovered cov (r, c)).
Proof.
  intros Hd Hr Hc. destruct (has_dims_cell _ _ (r, c) Hd Hr Hc) as [v Hv].
  unfold isCovered, coverageOf. rewrite Hv. simpl.
  apply cellAt_Some in Hv as (row & Hrow & Hv); simpl in *.
  unfold coveredAt, row_of. rewrite Hrow. simpl. by rewrite Hv.
Qed.

(** On grids of the right side the loop body reads without error and
    updates the accumulators as [stepAcc] says. *)
Lemma statsCell_spec p cov row col a :
  dims_ok p -> has_dims (gridSize p) cov -> in_bounds p (row, col) ->
  statsCell p cov row col a = Returned (stepAcc p cov a (row, col)).
Proof.
  intros (Hrisk & _ & Hterrain) Hcov Hin. pose proof Hin as [Hr Hc].
  simpl in Hr, Hc.
  destruct (has_dims_at _ _ row Hterrain Hr) as [trow Hrow].
  unfold statsCell, stepAcc, isPassable, cellAt, row_of. cbn [fst snd].
  rewrite Hrow. cbn [bind]. destruct (isOne (at_ trow col)); [|done].
  rewrite (riskAt_spec p row col Hrisk Hin). cbn [bind].
  rewrite (coveredAt_spec _ cov row col Hcov Hr Hc). cbv zeta.
  destruct (jge (Fin (riskOf p (row, col))) (Fin (7 # 10))),
    (isCovered cov (row, col)); reflexivity.
Qed.

(** A [for] loop whose body returns on every index of its range is a
    left fold over that range. *)
Lemma for_fold {St} (body : Z -> St -> outcome St) (g : St -> Z -> St) n :
  forall i s,
    (forall j s', i <= j < i + Z.of_nat n -> body j s' = Returned (g s' j)) ->
    for_ n i body s = Returned (fold_left g (seqZ i (Z.of_nat n)) s).
Proof.
  induction n as [|n IH]; intros i s Hbody; [done|].
  cbn [for_]. rewrite Hbody by lia. cbn [bind].
  rewrite seqZ_cons by lia. cbn [fold_left].
  replace (Z.pred (Z.of_nat (S n))) with (Z.of_nat n) by lia.
  apply IH. intros j s' Hj. apply Hbody. lia.
Qed.

Lemma fold_left_flat_map {A B C} (f : A -> C -> A) (g : B -> list C) l :
  forall a,
    fold_left f (flat_map g l) a
    = fold_left (fun a' r => fold_left f (g r) a') l a.
Proof.
  induction l as [|r l IH]; intros a; simpl; [done|].
  by rewrite fold_left_app, IH.
Qed.

Lemma fold_left_over_map {A B C} (f : A -> C -> A) (g : B -> C) l :
  forall a, fold_left f (map g l) a = fold_left (fun a' x => f a' (g x)) l a.
Proof. induction l as [|x l IH]; intros a; simpl; [done|]. by rewrite IH. Qed.

Lemma statsLoops_spec p cov :
  dims_ok p -> has_dims (gridSize p) cov -> 0 <= gridSize p ->
  statsLoops p cov = Returned (fold_left (stepAcc p cov) (cells p) acc0).
Proof.
  intros Hd Hcov Hgs. unfold statsLoops, cells.
  rewrite fold_left_flat_map.
  assert (seqZ 0 (gridSize p) = seqZ 0 (Z.of_nat (Z.to_nat (gridSize p))))
    as -> by (by rewrite Z2Nat.id).
  apply for_fold. intros row a Hrow.
  rewrite fold_left_over_map. apply for_fold. intros col a' Hcol.
  apply statsCell_spec; try done. split; simpl; lia.
Qed.

Lemma jge_Fin a b : jge (Fin a) (Fin b) = Qle_bool b a.
Proof.
  simpl. destruct (a ?= b)%Q eqn:Hc; symmetry.
  - apply Qle_bool_iff, Qle_lteq. right. symmetry. by apply Qeq_alt.
  - apply Qlt_alt in Hc. apply not_true_is_false.
    intros Hle%Qle_bool_iff. by apply Qlt_not_le in Hc.
  - apply Qle_bool_iff, Qlt_le_weak. by apply Qgt_alt.
Qed.

(** The accumulators after the loops have swept the cells [l]: the two
    sums and the two counts of the reference definition, added to what the
    accumulators held before. *)
Lemma fold_stepAcc p cov l : forall a t c,
  totalRisk a = Fin t -> coveredRisk a = Fin c ->
  exists t' c',
    totalRisk (fold_left (stepAcc p cov) l a) = Fin t' /\
    coveredRisk (fold_left (stepAcc p cov) l a) = Fin c' /\
    (t' == t + sumQ (map (riskOf p) (List.filter (isPassable p) l)))%Q /\
    (c' == c + sumQ (map (mitigated p cov) (List.filter (isPassable p) l)))%Q /\
    highRiskCells (fold_left (stepAcc p cov) l a)
    = highRiskCells a
      + Z.of_nat (length (List.filter
                            (fun x => isPassable p x && isHighRisk p x) l)) /\
    coveredHighRisk (fold_left (stepAcc p cov) l a)
    = coveredHighRisk a
      + Z.of_nat (length (List.filter (isCovered cov)
                   (List.filter
                      (fun x => isPassable p x && isHighRisk p x) l))).
Proof.
  induction l as [|x l IH]; intros a t c Ht Hc; cbn [fold_left].
  - exists t, c. simpl. split_and!; try done; try lia; ring.
  - unfold stepAcc at 2 4 6 8. cbn [List.filter].
    destruct (isPassable p x) eqn:Hp; cbn [andb]; [|by apply IH].
    cbv zeta. rewrite jge_Fin. fold (isHighRisk p x). rewrite Ht, Hc.
    set (a1 := Build_Acc _ _ _ _).
    destruct (IH a1 (t + riskOf p x)%Q (c + mitigated p cov x)%Q)
      as (t' & c' & Ht' & Hc' & Hte & Hce & Hh & Hch).
    { done. }
    { unfold a1, mitigated; simpl. by destruct (isCovered cov x). }
    exists t', c'. rewrite Hh, Hch. unfold a1. cbn [highRiskCells coveredHighRisk].
    split_and!; try done.
    + rewrite Hte. simpl. ring.
    + rewrite Hce. simpl. ring.
    + destruct (isHighRisk p x); simpl length; lia.
    + destruct (isHighRisk p x); cbn [List.filter]; [|done].
      destruct (isCovered cov x); simpl length; lia.
Qed.





Lemma jdiv_cells q n :
  0 < n -> jdiv (Fin q) (of_Z (n * n)) = Fin (q / inject_Z (n * n)).
Proof. intros Hn. apply jdiv_pos. unfold Qlt; simpl. nia. Qed.


Lemma in_cells p x : in_bounds p x -> In x (cells p).
Proof.
  destruct x as [r c]. intros [Hr Hc]; simpl in *.
  unfold cells. apply in_flat_map. exists r. split.
  - apply list_elem_of_In, elem_of_seqZ. lia.
  - apply in_map, list_elem_of_In, elem_of_seqZ. lia.
Qed.


Lemma patrol_dims : dims_ok patrol.
Proof. repeat split; repeat constructor. Qed.


(** One of two high-risk cells is visited: half of them are covered, and
    the mean risk drops from 1.7 / 4 to 0.98 / 4. *)
Example hotspots_stats :
  exists res,
    runLocalOptimization 1 zeros hotspots = Returned res /\
    routes res = [{| rangerId := 0; path := [(0, 0)] |}] /\
    jeq (beforeRisk (stats res)) (Fin (17 # 40)) /\
    jeq (afterRisk (stats res)) (Fin (98 # 400)) /\
    riskReduction (stats res) = "42%"%string /\
    highRiskCoverage (stats res) = "50%"%string /\
    ref_highRiskCoverage hotspots (coverage res) = "50%"%string.
Proof. eexists. split; [reflexivity|]. by vm_compute. Qed.

(** ** Runs on parameters outside the input type *)

Lemma idle_run : runLocalOptimization 0 zeros idle = Returned idle_result.
Proof. reflexivity. Qed.

Lemma stepless_run :
  runLocalOptimization 1 zeros stepless = Returned stepless_result.
Proof. reflexivity. Qed.

(** C8 (counterexample). With [rangerCount = 0] nothing is rejected: the
    call returns an empty route list, the zero coverage grid and the
    statistics of the grid, even before any fuel is needed. *)
Lemma zero_rangers_not_rejected :
  rangerCount idle <= 0 /\
  runLocalOptimization 0 zeros idle = Returned idle_result /\
  forall e, runLocalOptimization 0 zeros idle <> Thrown e.
Proof. split; [done|]. split; [reflexivity|]. intros e. discriminate. Qed.

(** [toFixed(0)] prints every number between 0 and 100. *)
Lemma toFixed0_bounded q :
  (0 <= q)%Q -> (q <= 100)%Q -> is_Some (toFixed0 (Fin q)).
Proof.
  intros H0 H100. unfold toFixed0.
  assert (qsign q <> Lt) as Hs.
  { unfold qsign. intros Hlt%Qlt_alt. by apply Qlt_not_le in Hlt. }
  assert (Qfloor q <= 100) as Hfl.
  { rewrite <- (Qfloor_Z 100). by apply Qfloor_resp_le. }
  destruct (qsign q); try done; rewrite decide_False by lia; eauto.
Qed.

Lemma toFixed_special x :
  x = NaN \/ x = PInf \/ x = NInf -> exists s, toFixed (percent x) = Returned s.
Proof. intros [->|[->| ->]]; eexists; reflexivity. Qed.

Lemma toFixed_bounded q :
  (0 <= q)%Q -> (q <= 1)%Q -> exists s, toFixed (percent (Fin q)) = Returned s.
Proof.
  intros H0 H1. unfold toFixed, percent. cbn [jmul].
  destruct (toFixed0_bounded (q * 100)) as [s Hs].
  - apply Qmult_le_0_compat; [done|discriminate].
  - change 100%Q with (1 * 100)%Q at 2. apply Qmult_le_compat_r; [done|].
    discriminate.
  - rewrite Hs. eauto.
Qed.

Lemma reduction_range t c n :
  (0 < n)%Q -> ~ (t / n == 0)%Q ->
  (c == t)%Q \/ (0 <= c /\ c <= t)%Q ->
  (0 <= (t / n + - (c / n)) / (t / n) <= 1)%Q.
Proof.
  intros Hn Hb [Heq|[H0 Hle]].
  - assert (~ n == 0)%Q as Hn0 by (by apply Qnot_eq_sym, Qlt_not_eq).
    assert ((t / n + - (c / n)) / (t / n) == 0)%Q as ->.
    { rewrite Heq. field. split; [done|].
      intros Ht. apply Hb. rewrite Ht. by field. }
    split; discriminate.
  - assert (0 <= / n)%Q as Hinv by (by apply Qinv_le_0_compat, Qlt_le_weak).
    assert (0 <= c / n)%Q as Ha by (by apply Qmult_le_0_compat).
    assert (c / n <= t / n)%Q as Hab
      by (unfold Qdiv; by apply Qmult_le_compat_r).
    assert (0 < t / n)%Q as Hpos.
    { destruct (Qlt_le_dec 0 (t / n)) as [|Hneg]; [done|].
      exfalso. apply Hb. apply Qle_antisym; [exact Hneg|].
      eapply Qle_trans; [exact Ha|exact Hab]. }
    split.
    + apply Qle_shift_div_l; [done|]. lra.
    + apply Qle_shift_div_r; [done|]. lra.
Qed.

(** The closing computation returns as soon as the mitigated sum lies
    between 0 and the plain sum, or equals it. *)
Lemma finishStats_returns p a t c :
  0 < gridSize p ->
  totalRisk a = Fin t -> coveredRisk a = Fin c ->
  (c == t)%Q \/ (0 <= c /\ c <= t)%Q ->
  0 <= coveredHighRisk a <= highRiskCells a ->
  exists st, finishStats p a = Returned st.
Proof.
  intros Hgs Ht Hc Hsum Hcount. unfold finishStats.
  rewrite Ht, Hc, !jdiv_cells by done.
  set (n := inject_Z (gridSize p * gridSize p)).
  assert (0 < n)%Q as Hn by (unfold n, Qlt; simpl; nia).
  assert (exists s, toFixed (percent (jdiv (jsub (Fin (t / n)) (Fin (c / n)))
                                           (Fin (t / n)))) = Returned s)
    as [s ->].
  { destruct (Qeq_dec (t / n) 0) as [Hz|Hnz].
    - by apply toFixed_special, jdiv_zero.
    - assert (qsign (t / n) <> Eq) as Hs.
      { unfold qsign. by rewrite <- Qeq_alt. }
      destruct (reduction_range t c n Hn Hnz Hsum) as [Hlo Hhi].
      cbn [jsub jneg jadd jdiv]. destruct (qsign (t / n)); [done|..];
        by apply toFixed_bounded. }
  cbn [bind]. destruct (0 <? highRiskCells a) eqn:Hhigh; [|cbn [bind]; eauto].
  apply Z.ltb_lt in Hhigh. unfold of_Z.
  rewrite jdiv_pos by (unfold Qlt; simpl; lia).
  destruct (toFixed_bounded
              (inject_Z (coveredHighRisk a) / inject_Z (highRiskCells a)))
    as [s' ->]; [| |cbn [bind]; eauto].
  - apply Qle_shift_div_l; [unfold Qlt; simpl; lia|].
    unfold Qle; simpl. lia.
  - apply Qle_shift_div_r; [unfold Qlt; simpl; lia|].
    unfold Qle; simpl. lia.
Qed.

Lemma sumQ_ext (f g : cell -> Q) l :
  (forall x, (g x == f x)%Q) -> (sumQ (map g l) == sumQ (map f l))%Q.
Proof.
  intros H. induction l as [|x l IH]; simpl; [reflexivity|].
  by rewrite IH, H.
Qed.

Lemma sumQ_between (f g : cell -> Q) l :
  (forall x, (0 <= g x /\ g x <= f x)%Q) ->
  (0 <= sumQ (map g l) /\ sumQ (map g l) <= sumQ (map f l))%Q.
Proof.
  intros H. induction l as [|x l [IH0 IH]]; simpl; [split; discriminate|].
  destruct (H x) as [H0 Hle]. split; lra.
Qed.

Lemma riskOf_nonneg p x :
  Forall (Forall (fun q => 0 <= q <= 1)%Q) (riskMap p) -> (0 <= riskOf p x)%Q.
Proof.
  intros Hall. unfold riskOf. destruct (cellAt (riskMap p) x) as [q|] eqn:Hq;
    simpl; [|discriminate].
  apply cellAt_Some in Hq as (row & [_ Hrow]%at_Some & [_ Hq]%at_Some).
  rewrite Forall_lookup in Hall. specialize (Hall _ _ Hrow).
  rewrite Forall_lookup in Hall. by destruct (Hall _ _ Hq).
Qed.

Lemma mitigated_between p cov x :
  (0 <= riskOf p x)%Q ->
  (0 <= mitigated p cov x /\ mitigated p cov x <= riskOf p x)%Q.
Proof. intros H. unfold mitigated. destruct (isCovered cov x); lra. Qed.

(** The statistics phase returns on grids of the right side when no cell
    is covered, or when no risk is negative. *)
Lemma computeStats_returns p cov :
  dims_ok p -> 0 < gridSize p -> has_dims (gridSize p) cov ->
  (forall x, isCovered cov x = false) \/ (forall x, (0 <= riskOf p x)%Q) ->
  exists st, computeStats p cov = Returned st.
Proof.
  intros Hd Hgs Hcov Hcase. unfold computeStats.
  rewrite (statsLoops_spec p cov) by (done || lia). cbn [bind].
  destruct (fold_stepAcc p cov (cells p) acc0 0%Q 0%Q)
    as (t & c & Ht & Hc & Hte & Hce & Hh & Hch); [done..|].
  apply (finishStats_returns p _ t c); try done.
  - rewrite Hte, Hce. destruct Hcase as [Hzero|Hpos].
    + left. apply Qplus_inj_l, sumQ_ext. intros x. unfold mitigated.
      by rewrite Hzero.
    + right.
      destruct (sumQ_between (riskOf p) (mitigated p cov)
                  (List.filter (isPassable p) (cells p))) as [H0 Hle].
      { intros x. by apply mitigated_between. }
      split; lra.
  - rewrite Hh, Hch. cbn [acc0 highRiskCells coveredHighRisk].
    pose proof (filter_length_le (isCovered cov)
      (List.filter (fun x => isPassable p x && isHighRisk p x) (cells p))).
    lia.
Qed.

Lemma zero_grid_uncovered n x :
  isCovered (replicate (Z.to_nat n) (replicate (Z.to_nat n) 0)) x = false.
Proof.
  unfold isCovered, coverageOf.
  destruct (cellAt _ x) as [v|] eqn:Hv; [|done].
  by apply zero_grid_cell in Hv as ->.
Qed.

Lemma oversized_run :
  runLocalOptimization 1 zeros oversized = Returned oversized_result.
Proof. reflexivity. Qed.

(** C8 (amended). The code validates nothing itself.  A negative
    [gridSize] makes the allocation of the coverage grid throw a
    [RangeError] before any route is generated.  A [gridSize] of 0 with an
    empty terrain and at least one ranger throws a [TypeError] at the first
    start selection.  A non-positive [rangerCount] is not rejected: on
    grids of side [0 < gridSize < 2^32] the call returns no route, the
    all-zero coverage grid and statistics.  A non-positive [maxSteps] is
    not rejected: each route of a returned result is a single cell.  Arrays
    that do not match [gridSize] are not rejected as such. *)
Theorem no_validation :
  (forall fuel rnd p,
     gridSize p < 0 -> runLocalOptimization fuel rnd p = Thrown RangeError) /\
  (forall fuel rnd p,
     gridSize p = 0 -> terrainMap p = [] -> 0 < rangerCount p ->
     runLocalOptimization (S fuel) rnd p = Thrown TypeError) /\
  (forall fuel rnd p,
     rangerCount p <= 0 -> 0 < gridSize p < 2 ^ 32 -> dims_ok p ->
     exists st,
       runLocalOptimization fuel rnd p
       = Returned {| routes := [];
                     coverage := replicate (Z.to_nat (gridSize p))
                                   (replicate (Z.to_nat (gridSize p)) 0);
                     stats := st |}) /\
  (forall fuel rnd p res,
     maxSteps p <= 0 -> runLocalOptimization fuel rnd p = Returned res ->
     Forall (fun rt => exists start, path rt = [start]) (routes res)) /\
  (exists fuel rnd p res,
     ~ dims_ok p /\ runLocalOptimization fuel rnd p = Returned res).
Proof.
  split_and!.
  - intros fuel rnd p Hgs. unfold runLocalOptimization.
    by rewrite newCoverage_bad by lia.
  - intros fuel rnd p Hgs Hterrain Hrc. unfold runLocalOptimization.
    rewrite newCoverage_ok by lia. cbn [bind]. unfold generateRoutes.
    destruct (Z.to_nat (rangerCount p)) as [|n] eqn:Hn; [lia|].
    cbn [for_]. unfold ranger at 1. cbn [findStart].
    unfold randomIndex. rewrite Hgs, Hterrain, Qmult_0_r. reflexivity.
  - intros fuel rnd p Hrc Hgs Hd. unfold runLocalOptimization.
    rewrite newCoverage_ok by lia. cbn [bind]. unfold generateRoutes.
    replace (Z.to_nat (rangerCount p)) with 0%nat by lia. cbn [for_ bind].
    destruct (computeStats_returns p
                (replicate (Z.to_nat (gridSize p))
                   (replicate (Z.to_nat (gridSize p)) 0)))
      as [st Hst]; try done; try lia.
    + apply zero_grid_dims.
    + left. intros x. apply zero_grid_uncovered.
    + cbn [fst snd]. rewrite Hst. cbn [bind]. eauto.
  - intros fuel rnd p res Hms (_ & Hoks & _)%run_routes.
    eapply Forall_impl; [exact Hoks|].
    intros rt (start & ext & -> & _ & _ & _ & Hlen).
    replace (Z.to_nat (maxSteps p - 1)) with 0%nat in Hlen by lia.
    destruct ext; [eauto|simpl in Hlen; lia].
  - exists 1%nat, zeros, oversized, oversized_result. split; [|reflexivity].
    intros ([Hlen _] & _). simpl in Hlen. lia.
Qed.

Lemma no_validation_witness :
  runLocalOptimization 1 zeros inverted = Thrown RangeError /\
  (exists st,
     runLocalOptimization 0 zeros idle
     = Returned {| routes := []; coverage := [[0]]; stats := st |}) /\
  Forall (fun rt => exists start, path rt = [start]) (routes stepless_result).
Proof.
  destruct no_validation as (Hneg & _ & Hidle & Hsteps & _). split_and!.
  - apply (Hneg 1%nat zeros inverted). reflexivity.
  - apply (Hidle 0%nat zeros idle).
    + simpl. lia.
    + simpl. lia.
    + repeat split; repeat constructor.
  - apply (Hsteps 1%nat zeros stepless stepless_result).
    + simpl. lia.
    + reflexivity.
Defined.

(** ** Termination on valid input *)

Lemma increment_ok p (cov cov' : grid) r c :
  increment cov r c = Returned cov' -> coverage_ok p cov -> coverage_ok p cov'.
Proof.
  intros Hinc [Hd Hnn]. split; [by eapply increment_dims|].
  apply increment_inv in Hinc as (row & v & _ & _ & Hrow & Hv & ->).
  rewrite Forall_lookup in Hnn. pose proof (Hnn _ _ Hrow) as Hrn.
  apply Forall_insert; [by apply Forall_lookup|].
  apply Forall_insert; [done|].
  rewrite Forall_lookup in Hrn. specialize (Hrn _ _ Hv). lia.
Qed.

Lemma walkStep_returns p cov row col :
  dims_ok p -> coverage_ok p cov ->
  walkStep p cov row col = Returned None \/
  exists best cov',
    walkStep p cov row col = Returned (Some (best, cov')) /\
    coverage_ok p cov'.
Proof.
  intros Hdims Hcov. unfold walkStep.
  rewrite (getNeighbors_spec row col p (proj2 (proj2 Hdims))). cbn [bind].
  destruct (candidates p (row, col)) as [|first rest] eqn:Hc; [by left|].
  right.
  assert (Forall (in_bounds p) (first :: rest)) as Hin.
  { rewrite <- Hc. apply Forall_forall. intros y Hy.
    by apply candidates_open in Hy as [? _]. }
  destruct (scoreLoop_first_max p cov Hdims Hcov (first :: rest) first Hin)
    as (i & best & -> & Hi & _); [done|].
  rewrite Forall_lookup in Hin. destruct (Hin _ _ Hi) as [Hr Hcol].
  destruct (increment_total _ cov best.1 best.2 (proj1 Hcov) Hr Hcol)
    as [cov' Hinc].
  cbn [bind]. rewrite Hinc. cbn [bind].
  exists best, cov'. split; [done|]. by eapply increment_ok.
Qed.

Lemma walk_returns p steps : forall row col path cov,
  dims_ok p -> coverage_ok p cov ->
  exists path' cov',
    walk steps p row col path cov = Returned (path', cov') /\
    coverage_ok p cov'.
Proof.
  induction steps as [|steps IH]; intros row col path cov Hdims Hcov;
    cbn [walk]; [eauto|].
  destruct (walkStep_returns p cov row col Hdims Hcov)
    as [->|(best & cov1 & -> & Hcov1)]; cbn [bind]; [eauto|].
  by apply IH.
Qed.

Lemma findStart_returns fuel rnd p : forall k,
  has_dims (gridSize p) (terrainMap p) -> 0 < gridSize p -> unit_source rnd ->
  (exists j, (j < fuel)%nat /\ hits rnd p (k + 2 * j)) ->
  exists start k',
    findStart fuel rnd k p = Returned (start, k') /\ in_bounds p start.
Proof.
  induction fuel as [|fuel IH]; intros k Hd Hgs Hrnd (j & Hj & Hhit); [lia|].
  cbn [findStart].
  pose proof (randomIndex_range p (rnd k) Hgs (Hrnd k)) as Hr.
  pose proof (randomIndex_range p (rnd (S k)) Hgs (Hrnd (S k))) as Hc.
  destruct (has_dims_at _ _ _ Hd Hr) as [trow Hrow].
  unfold row_of. rewrite Hrow. cbn [bind].
  destruct (isZero (at_ trow _)) eqn:Hz;
    [|eexists _, _; split; [reflexivity|by split]].
  apply IH; try done. destruct j as [|j].
  - exfalso. unfold hits, cellAt in Hhit. simpl in Hhit.
    rewrite Nat.add_0_r, Hrow in Hhit. congruence.
  - exists j. split; [lia|].
    by replace (S (S k) + 2 * j)%nat with (k + 2 * S j)%nat by lia.
Qed.

Section Returns.
Variables (fuel : nat) (rnd : nat -> Q) (p : Params).
Hypothesis Hdims : dims_ok p.
Hypothesis Hgs : 0 < gridSize p.
Hypothesis Hrnd : unit_source rnd.
Hypothesis Hfinds : finds fuel rnd p.

Lemma ranger_returns r routes cov k :
  coverage_ok p cov ->
  exists routes' cov' k',
    ranger fuel rnd p r (routes, cov, k) = Returned (routes', cov', k') /\
    coverage_ok p cov'.
Proof.
  intros Hcov. unfold ranger.
  destruct (findStart_returns fuel rnd p k (proj2 (proj2 Hdims)) Hgs Hrnd
              (Hfinds k)) as (start & k' & -> & Hr & Hc).
  cbn [bind].
  destruct (increment_total _ cov start.1 start.2 (proj1 Hcov) Hr Hc)
    as [cov1 Hinc].
  rewrite Hinc. cbn [bind].
  destruct (walk_returns p (Z.to_nat (maxSteps p - 1)) start.1 start.2
              [start] cov1 Hdims) as (path' & cov2 & -> & Hcov2).
  { by eapply increment_ok. }
  cbn [bind]. eauto.
Qed.

Lemma rangers_returns n : forall i routes cov k,
  coverage_ok p cov ->
  exists routes' cov' k',
    for_ n i (ranger fuel rnd p) (routes, cov, k)
      = Returned (routes', cov', k') /\
    coverage_ok p cov'.
Proof.
  induction n as [|n IH]; intros i routes cov k Hcov; cbn [for_]; [eauto|].
  destruct (ranger_returns i routes cov k Hcov)
    as (routes1 & cov1 & k1 & -> & Hcov1).
  cbn [bind]. by apply IH.
Qed.
End Returns.

(** On an input of the specification's type, with a random source in
    [0, 1) and enough fuel for every start selection to find an accepted
    cell, the run returns a result. *)
Theorem run_returns fuel rnd p :
  valid_params p -> gridSize p < 2 ^ 32 -> unit_source rnd ->
  finds fuel rnd p ->
  exists res, runLocalOptimization fuel rnd p = Returned res.
Proof.
  intros (Hgs & _ & _ & Hdims & Hrisk & _) Hlt Hrnd Hfinds.
  unfold runLocalOptimization. rewrite newCoverage_ok by lia. cbn [bind].
  unfold generateRoutes.
  destruct (rangers_returns fuel rnd p Hdims Hgs Hrnd Hfinds
              (Z.to_nat (rangerCount p)) 0 []
              (replicate (Z.to_nat (gridSize p))
                 (replicate (Z.to_nat (gridSize p)) 0)) 0%nat)
    as (routes' & cov' & k' & -> & Hcov').
  { split; [apply zero_grid_dims|].
    apply Forall_replicate, Forall_replicate. lia. }
  cbn [bind fst snd].
  destruct (computeStats_returns p cov' Hdims Hgs (proj1 Hcov'))
    as [st ->].
  { right. intros x. by apply riskOf_nonneg. }
  cbn [bind]. eauto.
Qed.

Example corridor_returns :
  exists res, runLocalOptimization 1 zeros corridor = Returned res.
Proof.
  apply run_returns.
  - exact corridor_valid.
  - simpl. lia.
  - exact zeros_unit.
  - intros k. exists 0%nat. split; [lia|reflexivity].
Qed.

(** * The map generator and its callers: properties *)

(** ** [generateRandomMap] *)

Lemma forPure_inv {St} (P : Z -> St -> Prop) body n : forall i s,
  P i s ->
  (forall j s', i <= j < i + Z.of_nat n -> P j s' -> P (j + 1) (body j s')) ->
  P (i + Z.of_nat n) (forPure n i body s).
Proof.
  induction n as [|n IH]; intros i s Hs Hbody; cbn [forPure].
  - by replace (i + Z.of_nat 0) with i by lia.
  - replace (i + Z.of_nat (S n)) with (i + 1 + Z.of_nat n) by lia.
    apply IH; [apply Hbody; [lia|done]|].
    intros j s' Hj. apply Hbody. lia.
Qed.

Lemma Qle_bool_false a b : Qle_bool a b = false -> (b < a)%Q.
Proof.
  intros H. apply Qnot_le_lt. intros Hle%Qle_bool_iff. congruence.
Qed.

Lemma clamp_range x : (0 <= qmax 0 (qmin 1 x) <= 1)%Q.
Proof.
  unfold qmax, qmin.
  destruct (Qle_bool 1 x) eqn:H1.
  - change (Qle_bool 0 1) with true. split; discriminate.
  - apply Qle_bool_false in H1. destruct (Qle_bool 0 x) eqn:H0.
    + apply Qle_bool_iff in H0. split; [done|by apply Qlt_le_weak].
    + split; discriminate.
Qed.

Lemma round_range y : (0 <= y <= 100)%Q -> 0 <= round y <= 100.
Proof.
  intros [H0 H100]. unfold round. split.
  - change 0 with (Qfloor 0) at 1. apply Qfloor_resp_le. lra.
  - change 100 with (Qfloor (100 + (1 # 2))). apply Qfloor_resp_le. lra.
Qed.

Lemma cellRisk_hundredths gridSize row col baseRisk :
  exists n, 0 <= n <= 100 /\
            cellRisk gridSize row col baseRisk = (inject_Z n / 100)%Q.
Proof.
  unfold cellRisk. eexists. split; [|reflexivity].
  apply round_range. pose proof (clamp_range
    (baseRisk * (1 - edgeFactor gridSize row col * (5 # 10)))) as [H0 H1].
  split; lra.
Qed.

Lemma generateCell_ok rnd gridSize row col n qs bs ts k :
  generated_row n qs bs ts ->
  let '(qs', bs', ts', _) := generateCell rnd gridSize row col (qs, bs, ts, k) in
  generated_row (S n) qs' bs' ts'.
Proof.
  intros [Hlen Hall]. unfold generateCell.
  destruct (Qlt_bool (1 # 10) (rnd k)); split;
    try (rewrite length_app; simpl; lia);
    (apply Forall3_app; [done|]); (apply Forall3_cons; [|constructor]).
  - right. split; [done|]. apply cellRisk_hundredths.
  - left. done.
Qed.

Lemma generateRow_ok rnd gridSize row k :
  let '(qs, bs, ts, _) :=
    forPure (Z.to_nat gridSize) 0 (generateCell rnd gridSize row)
      ([], [], [], k) in
  generated_row (Z.to_nat gridSize) qs bs ts.
Proof.
  pose proof (forPure_inv
    (fun i (st : list Q * list bool * list Z * nat) =>
       generated_row (Z.to_nat i) st.1.1.1 st.1.1.2 st.1.2)
    (generateCell rnd gridSize row) (Z.to_nat gridSize) 0 ([], [], [], k)) as H.
  destruct (forPure _ _ _ _) as [[[qs bs] ts] k'].
  rewrite Z.add_0_l, Nat2Z.id in H. apply H.
  - split; [done|constructor].
  - intros j [[[qs' bs'] ts'] k1] Hj Hrow. simpl in Hrow.
    pose proof (generateCell_ok rnd gridSize row j _ _ _ _ k1 Hrow) as Hc.
    destruct (generateCell _ _ _ _ _) as [[[qs2 bs2] ts2] k2]. simpl.
    by replace (Z.to_nat (j + 1)) with (S (Z.to_nat j)) by lia.
Qed.

(** The three grids after the loops: as many rows as the side, each a
    row of generated cells. *)
Lemma generateRandomMap_rows gridSize rnd k :
  let m := (generateRandomMap gridSize rnd k).1 in
  length (map_terrainMap m) = Z.to_nat gridSize /\
  Forall3 (generated_row (Z.to_nat gridSize))
    (map_riskMap m) (map_animalMap m) (map_terrainMap m).
Proof.
  unfold generateRandomMap.
  pose proof (forPure_inv
    (fun i (st : list (list Q) * list (list bool) * list (list Z) * nat) =>
       length st.1.2 = Z.to_nat i /\
       Forall3 (generated_row (Z.to_nat gridSize)) st.1.1.1 st.1.1.2 st.1.2)
    (generateRow rnd gridSize) (Z.to_nat gridSize) 0 ([], [], [], k)) as H.
  destruct (forPure _ _ _ _) as [[[qm bm] tm] k'].
  rewrite Z.add_0_l, Nat2Z.id in H. apply H.
  - split; [done|constructor].
  - intros j [[[qm' bm'] tm'] k1] Hj [Hlen Hall]. simpl in Hlen, Hall.
    unfold generateRow.
    pose proof (generateRow_ok rnd gridSize j k1) as Hrow.
    destruct (forPure _ _ _ _) as [[[qs bs] ts] k2]. simpl. split.
    + rewrite length_app. simpl. lia.
    + apply Forall3_app; [done|]. apply Forall3_cons; [done|constructor].
Qed.

Lemma Forall3_Forall_l {A B C} (P : A -> B -> C -> Prop) (Q' : A -> Prop)
    l k k' :
  (forall x y z, P x y z -> Q' x) -> Forall3 P l k k' -> Forall Q' l.
Proof. intros HP H. induction H; constructor; eauto. Qed.

Lemma Forall3_Forall_m {A B C} (P : A -> B -> C -> Prop) (Q' : B -> Prop)
    l k k' :
  (forall x y z, P x y z -> Q' y) -> Forall3 P l k k' -> Forall Q' k.
Proof. intros HP H. induction H; constructor; eauto. Qed.

Lemma Forall3_Forall_r {A B C} (P : A -> B -> C -> Prop) (Q' : C -> Prop)
    l k k' :
  (forall x y z, P x y z -> Q' z) -> Forall3 P l k k' -> Forall Q' k'.
Proof. intros HP H. induction H; constructor; eauto. Qed.

Lemma generated_row_lengths n qs bs ts :
  generated_row n qs bs ts -> length qs = n /\ length bs = n /\ length ts = n.
Proof.
  intros [Hlen Hall]. pose proof (Forall3_length_lr _ _ _ _ Hall).
  pose proof (Forall3_length_lm _ _ _ _ Hall). lia.
Qed.

Section Generated.
Variables (gridSize : Z) (rnd : nat -> Q) (k : nat).

Lemma generated_gridSize : map_gridSize (generateRandomMap gridSize rnd k).1 = gridSize.
Proof.
  unfold generateRandomMap. by destruct (forPure _ _ _ _) as [[[? ?] ?] ?].
Qed.

Lemma generated_dims :
  has_dims gridSize (map_riskMap (generateRandomMap gridSize rnd k).1) /\
  has_dims gridSize (map_animalMap (generateRandomMap gridSize rnd k).1) /\
  has_dims gridSize (map_terrainMap (generateRandomMap gridSize rnd k).1).
Proof.
  pose proof (generateRandomMap_rows gridSize rnd k) as [Hlen Hall].
  pose proof (Forall3_length_lr _ _ _ _ Hall) as Hlq.
  pose proof (Forall3_length_lm _ _ _ _ Hall) as Hlb.
  split_and!; (split; [lia|]).
  - eapply Forall3_Forall_l; [|exact Hall].
    intros qs bs ts Hrow. by apply generated_row_lengths in Hrow as (? & ? & ?).
  - eapply Forall3_Forall_m; [|exact Hall].
    intros qs bs ts Hrow. by apply generated_row_lengths in Hrow as (? & ? & ?).
  - eapply Forall3_Forall_r; [|exact Hall].
    intros qs bs ts Hrow. by apply generated_row_lengths in Hrow as (? & ? & ?).
Qed.

Lemma generated_flags :
  Forall (Forall (fun v => v = 0 \/ v = 1)) (map_terrainMap (generateRandomMap gridSize rnd k).1).
Proof.
  pose proof (generateRandomMap_rows gridSize rnd k) as [_ Hall].
  eapply Forall3_Forall_r; [|exact Hall]. intros qs bs ts [_ Hrow].
  eapply Forall3_Forall_r; [|exact Hrow].
  intros q b t [(-> & _)|(-> & _)]; auto.
Qed.

Lemma generated_risks :
  Forall (Forall (fun q => exists n, 0 <= n <= 100 /\
                                     (q == inject_Z n / 100)%Q))
         (map_riskMap (generateRandomMap gridSize rnd k).1).
Proof.
  pose proof (generateRandomMap_rows gridSize rnd k) as [_ Hall].
  eapply Forall3_Forall_l; [|exact Hall]. intros qs bs ts [_ Hrow].
  eapply Forall3_Forall_l; [|exact Hrow].
  intros q b t [(_ & -> & _)|(_ & n & Hn & ->)].
  - exists 0. split; [lia|reflexivity].
  - exists n. split; [done|reflexivity].
Qed.

Lemma generated_impassable x :
  cellAt (map_terrainMap (generateRandomMap gridSize rnd k).1) x = Some 0 ->
  cellAt (map_riskMap (generateRandomMap gridSize rnd k).1) x = Some 0%Q /\
  cellAt (map_animalMap (generateRandomMap gridSize rnd k).1) x = Some false.
Proof.
  pose proof (generateRandomMap_rows gridSize rnd k) as [_ Hall].
  intros (ts & [Hr Hts]%at_Some & [Hc Ht]%at_Some)%cellAt_Some.
  destruct (Forall3_lookup_r _ _ _ _ _ _ Hall Hts)
    as (qs & bs & Hqs & Hbs & [_ Hrow]).
  destruct (Forall3_lookup_r _ _ _ _ _ _ Hrow Ht)
    as (q & b & Hq & Hb & [(_ & -> & ->)|(H01 & _)]); [|done].
  split; apply cellAt_Some; eexists; rewrite !at_Some; eauto.
Qed.
End Generated.

(** X1. Whatever the side and the random numbers, [generateRandomMap]
    builds three grids of [gridSize] rows of [gridSize] elements; terrain
    flags are 0 or 1; every risk is a whole number of hundredths between 0
    and 1; and a cell flagged impassable carries the risk 0 and no
    animal. *)
Theorem generateRandomMap_well_formed gridSize rnd k :
  let m := (generateRandomMap gridSize rnd k).1 in
  map_gridSize m = gridSize /\
  has_dims gridSize (map_riskMap m) /\
  has_dims gridSize (map_animalMap m) /\
  has_dims gridSize (map_terrainMap m) /\
  Forall (Forall (fun v => v = 0 \/ v = 1)) (map_terrainMap m) /\
  Forall (Forall (fun q => exists n, 0 <= n <= 100 /\
                                     (q == inject_Z n / 100)%Q))
         (map_riskMap m) /\
  (forall x, cellAt (map_terrainMap m) x = Some 0 ->
             cellAt (map_riskMap m) x = Some 0%Q /\
             cellAt (map_animalMap m) x = Some false).
Proof.
  intros m. destruct (generated_dims gridSize rnd k) as (Hq & Hb & Ht).
  split_and!; try done.
  - apply generated_gridSize.
  - apply generated_flags.
  - apply generated_risks.
  - apply generated_impassable.
Qed.

(** The generated map, completed by positive parameters, is an input of
    the type the optimisation expects. *)
Lemma generated_valid gridSize rnd k rangerCount maxSteps :
  0 < gridSize -> 0 < rangerCount -> 0 < maxSteps ->
  valid_params
    (paramsOf (generateRandomMap gridSize rnd k).1 rangerCount maxSteps).
Proof.
  intros Hgs Hrc Hms. unfold valid_params, dims_ok, paramsOf; simpl.
  rewrite generated_gridSize.
  destruct (generated_dims gridSize rnd k) as (Hq & Hb & Ht).
  split_and!; try done; [|apply generated_flags].
  eapply Forall_impl; [apply generated_risks|]. intros qs Hqs.
  eapply Forall_impl; [exact Hqs|]. intros q (n & Hn & ->). split.
  - apply Qle_shift_div_l; [reflexivity|]. unfold Qle; simpl. lia.
  - apply Qle_shift_div_r; [reflexivity|]. unfold Qle; simpl. lia.
Qed.

Lemma generated_convention gridSize rnd k rangerCount maxSteps :
  risk_convention
    (paramsOf (generateRandomMap gridSize rnd k).1 rangerCount maxSteps).
Proof.
  intros x [Hr Hc] Hp. unfold paramsOf, in_bounds in *; simpl in *.
  rewrite generated_gridSize in Hr, Hc.
  destruct (generated_dims gridSize rnd k) as (_ & _ & Ht).
  destruct (has_dims_cell _ _ x Ht Hr Hc) as [t Hcell].
  pose proof (terrain_flags_of_grid
    (paramsOf (generateRandomMap gridSize rnd k).1 rangerCount maxSteps))
    as Hflags.
  unfold paramsOf, terrain_flags, in_bounds in Hflags; simpl in Hflags.
  rewrite generated_gridSize in Hflags.
  destruct (Hflags Ht (generated_flags gridSize rnd k) x (conj Hr Hc))
    as [H0|H1].
  - apply generated_impassable in H0 as [Hq _].
    unfold isHighRisk, riskOf; simpl. by rewrite Hq.
  - unfold isPassable in Hp; simpl in Hp. by rewrite H1 in Hp.
Qed.

(** X2. The output of [generateRandomMap], passed on with positive
    [rangerCount] and [maxSteps] as [runOptimization] does, meets every
    assumption the results on routes and statistics rest on: the three
    grids have the side [gridSize], risks lie in [0, 1], terrain flags are
    0 or 1, and no impassable cell counts as a high-risk cell. *)
Theorem generated_map_fits_optimizer gridSize rnd k rangerCount maxSteps :
  0 < gridSize -> 0 < rangerCount -> 0 < maxSteps ->
  let p := paramsOf (generateRandomMap gridSize rnd k).1
             rangerCount maxSteps in
  valid_params p /\ dims_ok p /\ terrain_flags p /\ risk_convention p.
Proof.
  intros Hgs Hrc Hms p.
  pose proof (generated_valid gridSize rnd k rangerCount maxSteps Hgs Hrc Hms)
    as Hvalid.
  pose proof Hvalid as (_ & _ & _ & Hdims & _ & Hflags).
  split_and!; try done.
  - apply terrain_flags_of_grid; [apply Hdims|done].
  - apply generated_convention.
Qed.

Lemma generated_map_fits_optimizer_witness :
  valid_params (paramsOf (generateRandomMap 3 draws 0).1 2 4) /\
  dims_ok (paramsOf (generateRandomMap 3 draws 0).1 2 4) /\
  terrain_flags (paramsOf (generateRandomMap 3 draws 0).1 2 4) /\
  risk_convention (paramsOf (generateRandomMap 3 draws 0).1 2 4).
Proof.
  apply (generated_map_fits_optimizer 3 draws 0 2 4); reflexivity.
Defined.

(** ** Unlucky draws *)

Lemma low_draw_impassable x : (x <= 1 # 10)%Q -> Qlt_bool (1 # 10) x = false.
Proof.
  intros H. unfold Qlt_bool. by rewrite (proj2 (Qle_bool_iff _ _) H).
Qed.

(** A run of [n] draws that are all at most 0.1 yields [n] impassable
    cells and uses one draw per cell. *)
Lemma generateCells_low rnd gridSize row n : forall col qs bs ts k,
  (forall j, (k <= j < k + n)%nat -> (rnd j <= 1 # 10)%Q) ->
  forPure n col (generateCell rnd gridSize row) (qs, bs, ts, k)
  = (qs ++ replicate n 0%Q, bs ++ replicate n false, ts ++ replicate n 0,
     (k + n)%nat).
Proof.
  induction n as [|n IH]; intros col qs bs ts k Hlow; cbn [forPure].
  - by rewrite !app_nil_r, Nat.add_0_r.
  - unfold generateCell at 2. rewrite low_draw_impassable by (apply Hlow; lia).
    rewrite IH by (intros j Hj; apply Hlow; lia).
    rewrite <- !app_assoc. simpl. repeat f_equal. lia.
Qed.

Lemma generateRows_low rnd gridSize n : forall row qm bm tm k,
  (forall j, (k <= j < k + n * Z.to_nat gridSize)%nat -> (rnd j <= 1 # 10)%Q) ->
  (forPure n row (generateRow rnd gridSize) (qm, bm, tm, k)).1.2
  = tm ++ replicate n (replicate (Z.to_nat gridSize) 0).
Proof.
  induction n as [|n IH]; intros row qm bm tm k Hlow; cbn [forPure].
  - by rewrite app_nil_r.
  - unfold generateRow at 2.
    rewrite generateCells_low by (intros j Hj; apply Hlow; lia).
    rewrite IH by (intros j Hj; apply Hlow; lia).
    by rewrite <- app_assoc.
Qed.

Lemma generated_all_impassable gridSize rnd k rangerCount maxSteps :
  (forall j, (k <= j < k + Z.to_nat (gridSize * gridSize))%nat ->
             (rnd j <= 1 # 10)%Q) ->
  all_impassable
    (paramsOf (generateRandomMap gridSize rnd k).1 rangerCount maxSteps).
Proof.
  intros Hlow x [Hr Hc]. unfold paramsOf in *; simpl in *.
  rewrite generated_gridSize in Hr, Hc.
  assert (map_terrainMap (generateRandomMap gridSize rnd k).1
          = replicate (Z.to_nat gridSize) (replicate (Z.to_nat gridSize) 0))
    as ->.
  { pose proof (generateRows_low rnd gridSize (Z.to_nat gridSize) 0
                  [] [] [] k) as H.
    unfold generateRandomMap.
    destruct (forPure _ _ _ _) as [[[qm bm] tm] k']. simpl in *. apply H.
    intros j Hj. apply Hlow. nia. }
  destruct (has_dims_cell _ _ x (zero_grid_dims gridSize) Hr Hc) as [v Hv].
  rewrite Hv. by apply zero_grid_cell in Hv as ->.
Qed.

(** X3. The generator can hand the optimisation a map on which it never
    returns: when the [gridSize * gridSize] draws that decide the terrain
    are all at most 0.1 (one draw for a side of 1), every cell is
    impassable, and with at least one ranger the start selection of
    [runLocalOptimization] then retries for ever, whatever numbers
    [Math.random] returns afterwards. *)
Theorem generated_map_can_hang side rnd k rangers steps fuel rnd' :
  0 < side < 2 ^ 32 -> 0 < rangers ->
  (forall j, (k <= j < k + Z.to_nat (side * side))%nat ->
             (rnd j <= 1 # 10)%Q) ->
  unit_source rnd' ->
  all_impassable (paramsOf (generateRandomMap side rnd k).1 rangers steps) /\
  runLocalOptimization fuel rnd'
    (paramsOf (generateRandomMap side rnd k).1 rangers steps)
  = OutOfFuel.
Proof.
  intros Hgs Hrc Hlow Hrnd.
  pose proof (generated_all_impassable side rnd k rangers steps Hlow) as Hall.
  split; [done|].
  set (p := paramsOf _ _ _) in *.
  assert (gridSize p = side) as Hside by apply generated_gridSize.
  assert (rangerCount p = rangers) as Hrangers by done.
  unfold runLocalOptimization.
  rewrite newCoverage_ok by (rewrite Hside; lia). cbn [bind].
  unfold generateRoutes.
  destruct (Z.to_nat (rangerCount p)) as [|n] eqn:Hn; [lia|].
  cbn [for_]. unfold ranger at 1.
  by rewrite findStart_never by (done || rewrite Hside; lia).
Qed.

Lemma generated_map_can_hang_witness :
  all_impassable (paramsOf (generateRandomMap 2 zeros 0).1 1 5) /\
  runLocalOptimization 1000 draws
    (paramsOf (generateRandomMap 2 zeros 0).1 1 5)
  = OutOfFuel.
Proof.
  apply (generated_map_can_hang 2 zeros 0 1 5 1000 draws).
  - lia.
  - lia.
  - intros j _. discriminate.
  - intros [|[|[|[|j]]]]; split; discriminate || reflexivity.
Defined.

(** * Further properties of [runLocalOptimization] *)

(** ** The length of a route *)

Lemma around_sym x y : In y (around x) -> In x (around y).
Proof.
  destruct x as [r c]. unfold around; simpl.
  intros [<-|[<-|[<-|[<-|[]]]]]; simpl.
  - right. left. f_equal. lia.
  - left. f_equal. lia.
  - right. right. right. left. f_equal. lia.
  - right. right. left. f_equal. lia.
Qed.

(** Being a candidate is symmetric between open cells: the cell just left
    is a candidate of the cell moved to. *)
Lemma candidates_sym p x y :
  y ∈ candidates p x -> openCell p x = true -> x ∈ candidates p y.
Proof.
  unfold candidates. rewrite !list_elem_of_In, !filter_In.
  intros [Hy _] Hx. split; [by apply around_sym|done].
Qed.

Lemma walkStep_None p cov row col :
  walkStep p cov row col = Returned None -> candidates p (row, col) = [].
Proof.
  unfold walkStep. intros H. inv_bind H as ns Hns.
  apply getNeighbors_inv in Hns as ->.
  destruct (candidates p (row, col)) as [|first rest]; [done|].
  inv_bind H as b Hb. by inv_bind H as cov1 Hinc.
Qed.

(** From a cell without open neighbour the walk leaves the path as it
    is. *)
Lemma walk_stuck p steps row col path cov path' cov' :
  candidates p (row, col) = [] ->
  walk steps p row col path cov = Returned (path', cov') -> path' = path.
Proof.
  intros Hnone H. destruct steps as [|steps]; cbn [walk] in H.
  - by injection H as <- _.
  - inv_bind H as next Hnext. destruct next as [[best cov1]|].
    + apply walkStep_inv in Hnext as [Hbest _]. rewrite Hnone in Hbest.
      by apply elem_of_nil in Hbest.
    + by injection H as <- _.
Qed.

(** From an open cell with an open neighbour the walk never stops early:
    it appends one cell per iteration. *)
Lemma walk_full p steps : forall row col path cov path' cov',
  openCell p (row, col) = true -> candidates p (row, col) <> [] ->
  walk steps p row col path cov = Returned (path', cov') ->
  length path' = (length path + steps)%nat.
Proof.
  induction steps as [|steps IH]; intros row col path cov path' cov' Hopen Hne H;
    cbn [walk] in H.
  - injection H as <- _. lia.
  - inv_bind H as next Hnext. destruct next as [[[r c] cov1]|].
    + apply walkStep_inv in Hnext as [Hbest _]. simpl in H.
      apply IH in H.
      * rewrite H, length_app. simpl. lia.
      * apply openCell_spec. by eapply candidates_open.
      * intros Hnil. pose proof (candidates_sym _ _ _ Hbest Hopen) as Hback.
        rewrite Hnil in Hback. by apply elem_of_nil in Hback.
    + by apply walkStep_None in Hnext.
Qed.

Lemma ranger_stuck_or_full fuel rnd p r routes cov k routes' cov' k' :
  terrain_flags p -> 0 < maxSteps p -> has_dims (gridSize p) cov ->
  ranger fuel rnd p r (routes, cov, k) = Returned (routes', cov', k') ->
  exists rt, routes' = routes ++ [rt] /\ stuck_or_full p rt.
Proof.
  intros Hflags Hms Hd H. unfold ranger in H.
  inv_bind H as [[sr sc] k1] Hstart. inv_bind H as cov1 Hinc.
  inv_bind H as [path' cov2] Hwalk. injection H as <- <- <-. simpl in *.
  apply findStart_inv in Hstart as [Hz _].
  destruct (increment_cellAt _ _ _ _ Hinc) as (v & Hv & _).
  pose proof (has_dims_cell_inv _ _ _ _ Hd Hv) as Hin.
  pose proof (start_passable p (sr, sc) Hflags Hin Hz) as Hpass.
  eexists. split; [done|].
  pose proof Hwalk as (ext & -> & _)%walk_inv.
  exists (sr, sc), ext. split; [done|]. simpl.
  destruct (candidates p (sr, sc)) as [|first rest] eqn:Hc.
  - left. split; [done|]. apply walk_stuck in Hwalk; [|done].
    by destruct ext.
  - right. split; [done|].
    apply walk_full in Hwalk.
    + simpl in Hwalk. injection Hwalk as Hlen. rewrite Hlen. lia.
    + by apply openCell_spec.
    + by rewrite Hc.
Qed.

Lemma rangers_stuck_or_full fuel rnd p n : forall i routes cov k routes' cov' k',
  terrain_flags p -> 0 < maxSteps p -> has_dims (gridSize p) cov ->
  Forall (stuck_or_full p) routes ->
  for_ n i (ranger fuel rnd p) (routes, cov, k)
    = Returned (routes', cov', k') ->
  Forall (stuck_or_full p) routes'.
Proof.
  induction n as [|n IH]; intros i routes cov k routes' cov' k' Hf Hms Hd Hall H;
    cbn [for_] in H.
  - by injection H as <- _ _.
  - inv_bind H as [[routes1 cov1] k1] Hr.
    pose proof Hr as (rt & -> & Hrt)%ranger_stuck_or_full; try done.
    apply ranger_inv in Hr as (_ & _ & _ & _ & _ & Hd1); [|done].
    eapply IH; [done..| |exact H].
    apply Forall_app. split; [done|]. by constructor.
Qed.

(** X4. On a terrain of flags 0 and 1 and with [maxSteps >= 1], a
    returned route is never cut short in the middle: either its start cell
    has no passable neighbour and the route is that single cell, or the
    route has exactly [maxSteps] cells. *)
Theorem route_length_dichotomy fuel rnd p res :
  terrain_flags p -> 0 < maxSteps p ->
  runLocalOptimization fuel rnd p = Returned res ->
  Forall (fun rt =>
    exists start ext,
      path rt = start :: ext /\
      ((candidates p start = [] /\ ext = []) \/
       (candidates p start <> [] /\
        Z.of_nat (length (path rt)) = maxSteps p))) (routes res).
Proof.
  intros Hflags Hms (k & _ & Hgen & _)%run_inv.
  unfold generateRoutes in Hgen.
  eapply (rangers_stuck_or_full fuel rnd p); [done..| | |exact Hgen].
  - apply zero_grid_dims.
  - constructor.
Qed.

Lemma route_length_dichotomy_witness :
  Forall (fun rt =>
    exists start ext,
      path rt = start :: ext /\
      ((candidates patrol start = [] /\ ext = []) \/
       (candidates patrol start <> [] /\
        Z.of_nat (length (path rt)) = 4))) (routes patrol_result).
Proof.
  apply (route_length_dichotomy 2 draws patrol patrol_result).
  - exact patrol_flags.
  - reflexivity.
  - reflexivity.
Defined.

(** ** The range of the statistics *)

Lemma length_flat_map_const {A B} (f : A -> list B) n l :
  (forall x, length (f x) = n) -> length (flat_map f l) = (length l * n)%nat.
Proof.
  intros Hf. induction l as [|x l IH]; simpl; [done|].
  rewrite length_app, IH, Hf. lia.
Qed.

Lemma length_cells p :
  length (cells p) = (Z.to_nat (gridSize p) * Z.to_nat (gridSize p))%nat.
Proof.
  unfold cells. rewrite (length_flat_map_const _ (Z.to_nat (gridSize p))).
  - by rewrite length_seqZ.
  - intros r. by rewrite length_map, length_seqZ.
Qed.










(** * The page: properties *)

(** ** Tokens and queries *)

Lemma elem_of_addClass c d l : c ∈ addClass d l <-> c = d \/ c ∈ l.
Proof.
  unfold addClass. case_decide as Hd.
  - split; [by right|]. by intros [->|].
  - rewrite elem_of_app, list_elem_of_singleton. tauto.
Qed.

Lemma elem_of_removeClass c d l : c ∈ removeClass d l <-> c <> d /\ c ∈ l.
Proof. unfold removeClass. by rewrite list_elem_of_filter. Qed.

Lemma routeClass_token i : routeClass i ∈ routeTokens.
Proof.
  unfold routeClass. pose proof (Nat.mod_upper_bound i 5) as Hlt.
  destruct (i mod 5)%nat as [|[|[|[|[|n]]]]]; [..|lia];
    apply list_elem_of_In; vm_compute; auto 10.
Qed.

Lemma routeClass_not_map_cell i : routeClass i <> "map-cell"%string.
Proof. unfold routeClass. simpl. discriminate. Qed.

Lemma isMapCell_pos x e :
  isMapCell x e = true -> (dataRow e, dataCol e) = x.
Proof.
  unfold isMapCell. rewrite !andb_true_iff, !bool_decide_eq_true.
  destruct x as [r c]. simpl. by intros [[_ ->] ->].
Qed.

Lemma isMapCell_markElement y i s e :
  isMapCell y (markElement i s e) = isMapCell y e.
Proof.
  unfold isMapCell, hasClass, markElement, withClasses. simpl.
  f_equal. f_equal. apply bool_decide_ext.
  pose proof (routeClass_not_map_cell i) as Hr.
  destruct s; rewrite !elem_of_addClass; split; eauto;
    intros H; repeat (destruct H as [H|H]; [by try (symmetry in H)|]); done.
Qed.

Lemma querySelector_markCell_same x i s children :
  querySelector x (markCell x i s children)
  = markElement i s <$> querySelector x children.
Proof.
  unfold querySelector, markCell.
  induction children as [|e rest IH]; simpl; [done|].
  destruct (isMapCell x e) eqn:He; simpl.
  - by rewrite isMapCell_markElement, He.
  - by rewrite He.
Qed.

Lemma querySelector_markCell_other x y i s children :
  y <> x ->
  querySelector y (markCell x i s children) = querySelector y children.
Proof.
  intros Hne. unfold querySelector, markCell.
  induction children as [|e rest IH]; simpl; [done|].
  destruct (isMapCell x e) eqn:He; simpl.
  - rewrite isMapCell_markElement. destruct (isMapCell y e) eqn:Hy; [|done].
    apply isMapCell_pos in He, Hy. congruence.
  - destruct (isMapCell y e); [done|apply IH].
Qed.

Lemma present_markCell x y i s children :
  is_Some (querySelector y (markCell x i s children))
  <-> is_Some (querySelector y children).
Proof.
  destruct (decide (y = x)) as [->|Hne].
  - rewrite querySelector_markCell_same. by rewrite fmap_is_Some.
  - by rewrite querySelector_markCell_other.
Qed.

(** The classes a query sees after one point was drawn. *)
Lemma classesAt_markCell x y i s children c :
  c ∈ classesAt (markCell x i s children) y <->
  c ∈ classesAt children y \/
  (y = x /\ is_Some (querySelector x children) /\
   (c = "patrol"%string \/ c = routeClass i \/
    (s = true /\ c = "ranger"%string))).
Proof.
  unfold classesAt. destruct (decide (y = x)) as [->|Hne].
  - rewrite querySelector_markCell_same.
    destruct (querySelector x children) as [e|]; simpl.
    + unfold markElement. destruct s; simpl; rewrite !elem_of_addClass; split.
      * intros [->|[->|[->|?]]]; eauto 10.
      * intros [?|(_ & _ & [->|[->|[_ ->]]])]; eauto.
      * intros [->|[->|?]]; eauto 10.
      * intros [?|(_ & _ & [->|[->|[? _]]])]; eauto; done.
    + split; [by left|]. intros [?|(_ & [? ?] & _)]; done.
  - rewrite querySelector_markCell_other by done. split; [by left|].
    by intros [?|(? & _)].
Qed.

(** ** Drawing routes *)

Lemma classesAt_markPath i path : forall k children y c,
  c ∈ classesAt (markPath i k path children) y <->
  c ∈ classesAt children y \/
  (is_Some (querySelector y children) /\
   exists j, path !! j = Some y /\
     (c = "patrol"%string \/ c = routeClass i \/
      ((k + j = 0)%nat /\ c = "ranger"%string))).
Proof.
  induction path as [|point rest IH]; intros k children y c; cbn [markPath].
  - split; [by left|]. by intros [?|(_ & j & ? & _)].
  - rewrite IH, classesAt_markCell, present_markCell. split.
    + intros [[H|(-> & Hp & Hc)]|(Hp & j & Hj & Hc)].
      * by left.
      * right. split; [done|]. exists 0%nat. split; [done|].
        destruct Hc as [?|[?|[Hk ?]]]; eauto.
        apply Nat.eqb_eq in Hk. right. right. split; [lia|done].
      * right. split; [done|]. exists (S j). split; [done|].
        destruct Hc as [?|[?|[Hk ?]]]; eauto. lia.
    + intros [H|(Hp & [|j] & Hj & Hc)].
      * by left; left.
      * injection Hj as ->. left. right. split_and!; [done..|].
        destruct Hc as [?|[?|[Hk ?]]]; eauto.
        right. right. split; [|done]. apply Nat.eqb_eq. lia.
      * right. split; [done|]. exists j. split; [done|].
        destruct Hc as [?|[?|[Hk ?]]]; eauto. lia.
Qed.

Lemma present_markPath i path : forall k children y,
  is_Some (querySelector y (markPath i k path children))
  <-> is_Some (querySelector y children).
Proof.
  induction path as [|point rest IH]; intros k children y; cbn [markPath];
    [done|].
  by rewrite IH, present_markCell.
Qed.

Lemma marked_nil i0 lo hi y c : ~ marked i0 lo hi [] y c.
Proof. by intros (i & rt & j & ? & _). Qed.

Lemma marked_cons i0 lo hi rt routes y c :
  marked i0 lo hi (rt :: routes) y c <->
  (exists j, path rt !! j = Some y /\ (lo <= j < hi)%nat /\
     (c = "patrol"%string \/ c = routeClass i0 \/
      (j = 0%nat /\ c = "ranger"%string))) \/
  marked (S i0) lo hi routes y c.
Proof.
  unfold marked. split.
  - intros ([|i] & rt' & j & Hrt & Hj & Hb & Hc); simpl in Hrt.
    + injection Hrt as <-. left. exists j. rewrite Nat.add_0_r in Hc. eauto.
    + right. exists i, rt', j.
      replace (S i0 + i)%nat with (i0 + S i)%nat by lia. eauto.
  - intros [(j & Hj & Hb & Hc)|(i & rt' & j & Hrt & Hj & Hb & Hc)].
    + exists 0%nat, rt, j. rewrite Nat.add_0_r. eauto.
    + exists (S i), rt', j.
      replace (i0 + S i)%nat with (S i0 + i)%nat by lia. eauto.
Qed.

(** Bounds that exceed every path length do not matter. *)
Lemma marked_bound i0 hi routes y c :
  (longest routes <= hi)%nat ->
  marked i0 0 hi routes y c <-> marked i0 0 (longest routes) routes y c.
Proof.
  intros Hhi. unfold marked. split;
    intros (i & rt & j & Hrt & Hj & Hb & Hc); exists i, rt, j;
    split_and!; try done; try lia.
  apply lookup_lt_Some in Hj.
  enough (length (path rt) <= longest routes)%nat by lia.
  clear -Hrt. revert i Hrt. unfold longest.
  induction routes as [|r routes IH]; intros [|i] Hrt; simpl in *; try done.
  - injection Hrt as ->. lia.
  - specialize (IH _ Hrt). lia.
Qed.

Lemma classesAt_markRoutes routes : forall i0 children y c,
  c ∈ classesAt (markRoutes i0 routes children) y <->
  c ∈ classesAt children y \/
  (is_Some (querySelector y children) /\
   marked i0 0 (longest routes) routes y c).
Proof.
  induction routes as [|rt routes IH]; intros i0 children y c;
    cbn [markRoutes].
  - split; [by left|]. intros [?|[_ H]]; [done|]. by apply marked_nil in H.
  - rewrite IH, classesAt_markPath, present_markPath.
    rewrite <- (marked_bound (S i0) (longest (rt :: routes)) routes)
      by (unfold longest; simpl; lia).
    rewrite marked_cons. split.
    + intros [[H|(Hp & j & Hj & Hc)]|(Hp & Hm)]; [by left| |by eauto].
      right. split; [done|]. left. exists j. split_and!; [done|lia| |done].
      apply lookup_lt_Some in Hj. unfold longest; simpl. lia.
    + intros [H|(Hp & [(j & Hj & _ & Hc)|Hm])]; [by left; left| |by eauto].
      left. right. split; [done|]. eauto.
Qed.

Lemma present_markRoutes routes : forall i0 children y,
  is_Some (querySelector y (markRoutes i0 routes children))
  <-> is_Some (querySelector y children).
Proof.
  induction routes as [|rt routes IH]; intros i0 children y;
    cbn [markRoutes]; [done|].
  by rewrite IH, present_markPath.
Qed.

Lemma classesAt_markStep step routes : forall i0 children y c,
  c ∈ classesAt (markStep step i0 routes children) y <->
  c ∈ classesAt children y \/
  (is_Some (querySelector y children) /\
   marked i0 step (S step) routes y c).
Proof.
  induction routes as [|rt routes IH]; intros i0 children y c;
    cbn [markStep].
  - split; [by left|]. intros [?|[_ H]]; [done|]. by apply marked_nil in H.
  - rewrite IH, marked_cons. destruct (path rt !! step) as [point|] eqn:Hpt.
    + rewrite classesAt_markCell, present_markCell. split.
      * intros [[H|(-> & Hp & Hc)]|(Hp & Hm)]; [by left| |by eauto].
        right. split; [done|]. left. exists step.
        split_and!; [done|lia|lia|].
        destruct Hc as [?|[?|[Hk ?]]]; eauto.
        apply Nat.eqb_eq in Hk. eauto.
      * intros [H|(Hp & [(j & Hj & Hb & Hc)|Hm])];
          [by left; left| |by eauto].
        assert (j = step) as -> by lia.
        rewrite Hpt in Hj. injection Hj as ->.
        left. right. split_and!; [done..|].
        destruct Hc as [?|[?|[Hk ?]]]; eauto.
        right. right. split; [|done]. by apply Nat.eqb_eq.
    + split.
      * intros [H|(Hp & Hm)]; eauto.
      * intros [H|(Hp & [(j & Hj & Hb & Hc)|Hm])]; eauto.
        assert (j = step) as -> by lia. congruence.
Qed.

Lemma present_markStep step routes : forall i0 children y,
  is_Some (querySelector y (markStep step i0 routes children))
  <-> is_Some (querySelector y children).
Proof.
  induction routes as [|rt routes IH]; intros i0 children y;
    cbn [markStep]; [done|].
  rewrite IH. destruct (path rt !! step); [apply present_markCell|done].
Qed.

Lemma marked_split i0 lo mid hi routes y c :
  (lo <= mid <= hi)%nat ->
  marked i0 lo hi routes y c <->
  marked i0 lo mid routes y c \/ marked i0 mid hi routes y c.
Proof.
  intros Hmid. unfold marked. split.
  - intros (i & rt & j & Hrt & Hj & Hb & Hc).
    destruct (decide (j < mid)%nat); [left|right]; exists i, rt, j;
      split_and!; try done; lia.
  - intros [(i & rt & j & Hrt & Hj & Hb & Hc)|(i & rt & j & Hrt & Hj & Hb & Hc)];
      exists i, rt, j; split_and!; try done; lia.
Qed.

Lemma classesAt_animateEnd routes n : forall step children y c,
  c ∈ classesAt (animateEnd n step routes children) y <->
  c ∈ classesAt children y \/
  (is_Some (querySelector y children) /\
   marked 0 step (step + n) routes y c).
Proof.
  induction n as [|n IH]; intros step children y c; cbn [animateEnd].
  - split; [by left|]. intros [?|[_ (i & rt & j & _ & _ & ? & _)]]; [done|lia].
  - rewrite IH, classesAt_markStep, present_markStep.
    rewrite (marked_split 0 step (S step) (step + S n)) by lia.
    replace (S step + n)%nat with (step + S n)%nat by lia.
    split.
    + intros [[H|(Hp & Hm)]|(Hp & Hm)]; eauto.
    + intros [H|(Hp & [Hm|Hm])]; eauto.
Qed.

(** ** Clearing *)

Lemma not_routeToken c :
  c ∉ routeTokens <->
  c <> "route-4"%string /\ c <> "route-3"%string /\ c <> "route-2"%string /\
  c <> "route-1"%string /\ c <> "route-0"%string /\ c <> "ranger"%string /\
  c <> "patrol"%string.
Proof.
  unfold routeTokens. rewrite !not_elem_of_cons. split.
  - intros (? & ? & ? & ? & ? & ? & ? & _). done.
  - intros (? & ? & ? & ? & ? & ? & ?). split_and!; try done.
    apply not_elem_of_nil.
Qed.

Lemma clearElement_classes e c :
  hasClass "map-cell" e = true ->
  (hasClass "patrol" e || hasClass "ranger" e = false ->
   forall d, d ∈ classList e -> d ∉ routeTokens) ->
  c ∈ classList (clearElement e) <-> c ∈ classList e /\ c ∉ routeTokens.
Proof.
  intros Hmap Htidy. unfold clearElement. rewrite Hmap. simpl.
  destruct (hasClass "patrol" e || hasClass "ranger" e) eqn:Hp; simpl.
  - rewrite !elem_of_removeClass, not_routeToken. tauto.
  - split; [|tauto]. intros Hc. split; [done|]. by apply Htidy.
Qed.

Lemma clearElement_map_cell e :
  hasClass "map-cell" (clearElement e) = hasClass "map-cell" e.
Proof.
  unfold clearElement.
  destruct (hasClass "map-cell" e && _) eqn:Hc; [|done].
  unfold hasClass at 1. simpl. apply bool_decide_ext.
  rewrite !elem_of_removeClass. split; [tauto|].
  intros H. by split_and!.
Qed.

Lemma clearElement_position e : position (clearElement e) = position e.
Proof. unfold clearElement. by destruct (_ && _). Qed.

Lemma isMapCell_clearElement y e :
  isMapCell y (clearElement e) = isMapCell y e.
Proof.
  unfold isMapCell. rewrite clearElement_map_cell.
  pose proof (clearElement_position e) as [= -> ->]. done.
Qed.

Lemma querySelector_clearRoutes y children :
  querySelector y (clearRoutes children)
  = clearElement <$> querySelector y children.
Proof.
  unfold querySelector, clearRoutes.
  induction children as [|e rest IH]; simpl; [done|].
  rewrite isMapCell_clearElement. by destruct (isMapCell y e).
Qed.

Lemma present_clearRoutes y children :
  is_Some (querySelector y (clearRoutes children))
  <-> is_Some (querySelector y children).
Proof. by rewrite querySelector_clearRoutes, fmap_is_Some. Qed.

(** On a tidy page the clearing removes the route tokens and nothing
    else. *)
Lemma classesAt_clearRoutes children y c :
  tidy children ->
  c ∈ classesAt (clearRoutes children) y <->
  c ∈ classesAt children y /\ c ∉ routeTokens.
Proof.
  intros Htidy. unfold classesAt. rewrite querySelector_clearRoutes.
  destruct (querySelector y children) as [e|] eqn:He; simpl.
  - apply find_some in He as [Hin Hm].
    apply clearElement_classes.
    + unfold isMapCell in Hm. by apply andb_true_iff in Hm as [[? _]%andb_true_iff _].
    + unfold tidy in Htidy. rewrite Forall_forall in Htidy.
      by apply Htidy, list_elem_of_In.
  - split; [by intros ?%elem_of_nil|by intros [?%elem_of_nil _]].
Qed.

Lemma tidy_clearRoutes children : tidy children -> tidy (clearRoutes children).
Proof.
  unfold tidy, clearRoutes. intros H. apply Forall_fmap.
  eapply Forall_impl; [exact H|]. intros e He. unfold tidyElement, clearElement.
  simpl. destruct (hasClass "map-cell" e && _) eqn:Hc; [|done].
  intros _ c. simpl. rewrite !elem_of_removeClass, not_routeToken. tauto.
Qed.

Lemma tidy_markElement i s e : tidyElement (markElement i s e).
Proof.
  unfold tidyElement. intros H. exfalso.
  apply orb_false_iff in H as [H _].
  unfold hasClass in H. apply bool_decide_eq_false in H. apply H.
  unfold markElement. simpl.
  destruct s; rewrite !elem_of_addClass; auto.
Qed.

Lemma tidy_markCell x i s children :
  tidy children -> tidy (markCell x i s children).
Proof.
  unfold tidy, markCell.
  induction children as [|e rest IH]; intros H; simpl; [done|].
  apply Forall_cons in H as [He Hrest].
  destruct (isMapCell x e); constructor; auto using tidy_markElement.
Qed.

Lemma tidy_markPath i path : forall k children,
  tidy children -> tidy (markPath i k path children).
Proof.
  induction path as [|point rest IH]; intros k children H; cbn [markPath];
    [done|].
  by apply IH, tidy_markCell.
Qed.

Lemma tidy_markRoutes routes : forall i0 children,
  tidy children -> tidy (markRoutes i0 routes children).
Proof.
  induction routes as [|rt routes IH]; intros i0 children H;
    cbn [markRoutes]; [done|].
  by apply IH, tidy_markPath.
Qed.

Lemma tidy_markStep step routes : forall i0 children,
  tidy children -> tidy (markStep step i0 routes children).
Proof.
  induction routes as [|rt routes IH]; intros i0 children H;
    cbn [markStep]; [done|].
  apply IH. destruct (path rt !! step); [by apply tidy_markCell|done].
Qed.

Lemma tidy_animateEnd routes n : forall step children,
  tidy children -> tidy (animateEnd n step routes children).
Proof.
  induction n as [|n IH]; intros step children H; cbn [animateEnd]; [done|].
  by apply IH, tidy_markStep.
Qed.

(** ** The frames of the animation *)

Lemma animateSteps_lookup routes n : forall step children s frame,
  animateSteps n step routes children !! s = Some frame ->
  (s < n)%nat /\ frame = animateEnd (S s) step routes children.
Proof.
  induction n as [|n IH]; intros step children s frame H; [done|].
  cbn [animateSteps] in H. destruct s as [|s]; simpl in H.
  - injection H as <-. split; [lia|done].
  - apply IH in H as [Hs ->]. split; [lia|done].
Qed.

Lemma length_animateSteps routes n : forall step children,
  length (animateSteps n step routes children) = n.
Proof.
  induction n as [|n IH]; intros step children; simpl; [done|].
  by rewrite IH.
Qed.

Lemma last_cons_default {A} (l : list A) x d :
  List.last (x :: l) d = List.last l x.
Proof.
  revert x d. induction l as [|y l IH]; intros x d; [done|].
  change (List.last (x :: y :: l) d) with (List.last (y :: l) d).
  by rewrite !IH.
Qed.

Lemma last_animateSteps routes n : forall step children,
  List.last (animateSteps n step routes children) children
  = animateEnd n step routes children.
Proof.
  induction n as [|n IH]; intros step children; [done|].
  cbn [animateSteps animateEnd]. by rewrite last_cons_default, IH.
Qed.

Lemma animateRoutes_end routes children :
  animateRoutes routes children
  = animateEnd (longest routes) 0 routes (clearRoutes children).
Proof. unfold animateRoutes, animateFrames. apply last_animateSteps. Qed.

(** Membership in the marks, spelled out. *)
Lemma marked_all routes y c :
  marked 0 0 (longest routes) routes y c <->
  exists i rt j,
    routes !! i = Some rt /\ path rt !! j = Some y /\
    (c = "patrol"%string \/ c = routeClass i \/
     (j = 0%nat /\ c = "ranger"%string)).
Proof.
  unfold marked. split.
  - intros (i & rt & j & Hrt & Hj & _ & Hc). eauto 10.
  - intros (i & rt & j & Hrt & Hj & Hc).
    apply (marked_bound 0 (S j + longest routes)); [lia|].
    exists i, rt, j. split_and!; try done; lia.
Qed.

(** ** [renderMap] *)

Lemma forState_fold {St} (body : Z -> St -> St * option error)
    (g : St -> Z -> St) n : forall i s,
  (forall j s', i <= j < i + Z.of_nat n -> body j s' = (g s' j, None)) ->
  forState n i body s = (fold_left g (seqZ i (Z.of_nat n)) s, None).
Proof.
  induction n as [|n IH]; intros i s Hbody; [done|].
  cbn [forState]. rewrite Hbody by lia.
  rewrite seqZ_cons by lia. cbn [fold_left].
  replace (Z.pred (Z.of_nat (S n))) with (Z.of_nat n) by lia.
  apply IH. intros j s' Hj. apply Hbody. lia.
Qed.

Lemma riskClass_cases r :
  riskClass r = "risk-high"%string \/ riskClass r = "risk-medium"%string \/
  riskClass r = "risk-low"%string.
Proof.
  unfold riskClass. destruct r as [q|]; [|auto].
  destruct (Qle_bool (7 # 10) q); [auto|].
  destruct (Qle_bool (4 # 10) q); auto.
Qed.

Lemma renderCell_spec m row col children :
  has_dims (map_gridSize m) (map_riskMap m) ->
  has_dims (map_gridSize m) (map_animalMap m) ->
  has_dims (map_gridSize m) (map_terrainMap m) ->
  0 <= row < map_gridSize m ->
  renderCell m row col children
  = (children ++ [cellElement m (row, col)], None).
Proof.
  intros Hq Hb Ht Hr.
  destruct (has_dims_at _ _ row Hq Hr) as [qrow Hqrow].
  destruct (has_dims_at _ _ row Hb Hr) as [brow Hbrow].
  destruct (has_dims_at _ _ row Ht Hr) as [trow Htrow].
  unfold renderCell, cellElement, cellAt. simpl.
  rewrite Hqrow, Hbrow, Htrow.
  destruct (isZero (at_ trow col)); [done|].
  do 3 f_equal. unfold withClasses. simpl. f_equal.
  destruct (riskClass_cases (at_ qrow col)) as [-> | [-> | ->]];
    by destruct (at_ brow col) as [[|]|].
Qed.

Lemma fold_left_snoc_map {A B} (f : A -> B) l : forall acc,
  fold_left (fun s x => s ++ [f x]) l acc = acc ++ map f l.
Proof.
  induction l as [|x l IH]; intros acc; simpl; [by rewrite app_nil_r|].
  by rewrite IH, <- app_assoc.
Qed.

Lemma fold_left_rows {B} (f : cell -> B) (cols rows : list Z) : forall acc,
  fold_left (fun children row =>
               fold_left (fun s c => s ++ [f (row, c)]) cols children)
    rows acc
  = acc ++ map f (flat_map (fun r => map (fun c => (r, c)) cols) rows).
Proof.
  induction rows as [|r rows IH]; intros acc; simpl; [by rewrite app_nil_r|].
  rewrite IH, fold_left_snoc_map, map_app, map_map. by rewrite <- app_assoc.
Qed.

Lemma renderMap_spec m rangers steps :
  dims_ok (paramsOf m rangers steps) ->
  renderMap m (map_gridSize m)
  = (map (cellElement m) (cells (paramsOf m rangers steps)), None).
Proof.
  intros (Hq & Hb & Ht). unfold paramsOf in *; simpl in *.
  unfold renderMap.
  rewrite (forState_fold _
    (fun children row =>
       fold_left (fun s c => s ++ [cellElement m (row, c)])
         (seqZ 0 (map_gridSize m)) children)).
  - f_equal. unfold cells; simpl.
    destruct (decide (0 <= map_gridSize m)) as [Hgs|Hgs].
    + rewrite Z2Nat.id by done. by rewrite fold_left_rows.
    + replace (Z.to_nat (map_gridSize m)) with 0%nat by lia.
      rewrite (seqZ_nil 0 (map_gridSize m)) by lia. done.
  - intros row children Hrow.
    destruct (decide (0 <= map_gridSize m)) as [Hgs|Hgs]; [|lia].
    rewrite <- (Z2Nat.id (map_gridSize m)) at 2 by done.
    apply forState_fold. intros col children' Hcol.
    apply renderCell_spec; try done. lia.
Qed.

Lemma isZero_spec v : isZero v = true <-> v = Some 0.
Proof. destruct v as [[| |]|]; simpl; split; congruence. Qed.

Lemma position_cellElement m x : position (cellElement m x) = x.
Proof. by destruct x. Qed.

Lemma cellElement_map_cell m x : "map-cell"%string ∈ classList (cellElement m x).
Proof. unfold cellElement; simpl. destruct (isZero _); left. Qed.

Lemma isMapCell_cellElement m x y :
  isMapCell x (cellElement m y) = bool_decide (y = x).
Proof.
  unfold isMapCell, hasClass.
  rewrite (bool_decide_eq_true_2 _ (cellElement_map_cell m y)).
  destruct x as [r c], y as [r' c']. simpl.
  destruct (decide (r' = r)) as [->|Hr], (decide (c' = c)) as [->|Hc];
    rewrite ?bool_decide_eq_true_2, ?bool_decide_eq_false_2 by congruence;
    simpl; try done.
  all: symmetry; apply bool_decide_eq_false_2; congruence.
Qed.

Lemma querySelector_cellElements m x l :
  In x l -> querySelector x (map (cellElement m) l) = Some (cellElement m x).
Proof.
  unfold querySelector. induction l as [|y l IH]; intros Hin; [done|].
  simpl. rewrite isMapCell_cellElement.
  destruct (decide (y = x)) as [->|Hne].
  - by rewrite bool_decide_eq_true_2.
  - rewrite bool_decide_eq_false_2 by done. apply IH.
    by destruct Hin.
Qed.

Lemma cellElement_tokens m x c :
  c ∈ classList (cellElement m x) -> c ∉ routeTokens.
Proof.
  unfold cellElement; simpl. intros Hc. apply not_routeToken.
  destruct (isZero _).
  - repeat (apply elem_of_cons in Hc as [->|Hc]; [by split_and!|]).
    by apply elem_of_nil in Hc.
  - apply elem_of_cons in Hc as [->|Hc]; [by split_and!|].
    apply elem_of_cons in Hc as [->|Hc].
    + destruct (riskClass_cases (cellAt (map_riskMap m) x))
        as [-> | [-> | ->]]; by split_and!.
    + destruct (cellAt (map_animalMap m) x) as [[|]|];
        try by apply elem_of_nil in Hc.
      apply list_elem_of_singleton in Hc as ->. by split_and!.
Qed.

Lemma tidy_cellElements m l : tidy (map (cellElement m) l).
Proof.
  apply Forall_fmap, Forall_forall. intros x _ _ c. apply cellElement_tokens.
Qed.

(** The appearance of the cell [x], read off its risk [q]. *)
Lemma cellElement_classes m x q :
  cellAt (map_riskMap m) x = Some q ->
  let l := classList (cellElement m x) in
  let land := cellAt (map_terrainMap m) x <> Some 0 in
  ("terrain"%string ∈ l <-> ~ land) /\
  ("risk-high"%string ∈ l <-> land /\ (7 # 10 <= q)%Q) /\
  ("risk-medium"%string ∈ l <-> land /\ (4 # 10 <= q)%Q /\ (q < 7 # 10)%Q) /\
  ("risk-low"%string ∈ l <-> land /\ (q < 4 # 10)%Q) /\
  ("animal"%string ∈ l <-> land /\ cellAt (map_animalMap m) x = Some true).
Proof.
  intros Hq. unfold cellElement; simpl. rewrite Hq. unfold riskClass.
  destruct (isZero (cellAt (map_terrainMap m) x)) eqn:Hz.
  - apply isZero_spec in Hz.
    split_and!; (split;
      [intros H; apply list_elem_of_In in H; simpl in H
      |intros H; apply list_elem_of_In; simpl]);
      intuition (try discriminate; try done; auto).
  - assert (cellAt (map_terrainMap m) x <> Some 0) as Hland.
    { intros H%isZero_spec. congruence. }
    destruct (Qle_bool (7 # 10) q) eqn:H7;
      [apply Qle_bool_iff in H7|apply Qle_bool_false in H7];
      (destruct (Qle_bool (4 # 10) q) eqn:H4;
       [apply Qle_bool_iff in H4|apply Qle_bool_false in H4]);
      destruct (cellAt (map_animalMap m) x) as [[|]|];
      split_and!; (split;
        [intros H; apply list_elem_of_In in H; simpl in H
        |intros H; apply list_elem_of_In; simpl]);
      intuition (try discriminate; try done; try lra; auto).
Qed.

(** ** Positions *)

Lemma positions_updateFirst f g children :
  (forall e, position (g e) = position e) ->
  map position (updateFirst f g children) = map position children.
Proof.
  intros Hg. induction children as [|e rest IH]; simpl; [done|].
  destruct (f e); simpl; [by rewrite Hg|by rewrite IH].
Qed.

Lemma positions_markCell x i s children :
  map position (markCell x i s children) = map position children.
Proof. by apply positions_updateFirst. Qed.

Lemma positions_markPath i path : forall k children,
  map position (markPath i k path children) = map position children.
Proof.
  induction path as [|point rest IH]; intros k children; cbn [markPath];
    [done|].
  by rewrite IH, positions_markCell.
Qed.

Lemma positions_markRoutes routes : forall i0 children,
  map position (markRoutes i0 routes children) = map position children.
Proof.
  induction routes as [|rt routes IH]; intros i0 children; cbn [markRoutes];
    [done|].
  by rewrite IH, positions_markPath.
Qed.

Lemma positions_markStep step routes : forall i0 children,
  map position (markStep step i0 routes children) = map position children.
Proof.
  induction routes as [|rt routes IH]; intros i0 children; cbn [markStep];
    [done|].
  rewrite IH. destruct (path rt !! step); [apply positions_markCell|done].
Qed.

Lemma positions_animateEnd routes n : forall step children,
  map position (animateEnd n step routes children) = map position children.
Proof.
  induction n as [|n IH]; intros step children; cbn [animateEnd]; [done|].
  by rewrite IH, positions_markStep.
Qed.

Lemma positions_clearRoutes children :
  map position (clearRoutes children) = map position children.
Proof.
  unfold clearRoutes. rewrite map_map. apply map_ext.
  apply clearElement_position.
Qed.

Lemma present_animateEnd routes n : forall step children y,
  is_Some (querySelector y (animateEnd n step routes children))
  <-> is_Some (querySelector y children).
Proof.
  induction n as [|n IH]; intros step children y; cbn [animateEnd]; [done|].
  by rewrite IH, present_markStep.
Qed.

(** ** What the two renderers draw *)

Lemma drawn_token routes y c : drawn routes y c -> c ∈ routeTokens.
Proof.
  intros (i & rt & j & _ & _ & [->|[->|[_ ->]]]).
  - left.
  - apply routeClass_token.
  - right. left.
Qed.

Lemma classesAt_renderRoutes_tidy routes children y c :
  tidy children ->
  c ∈ classesAt (renderRoutes routes children) y <->
  (c ∈ classesAt children y /\ c ∉ routeTokens) \/
  (is_Some (querySelector y children) /\ drawn routes y c).
Proof.
  intros Htidy. unfold renderRoutes.
  by rewrite classesAt_markRoutes, classesAt_clearRoutes,
    present_clearRoutes, marked_all.
Qed.

Lemma classesAt_animateRoutes_tidy routes children y c :
  tidy children ->
  c ∈ classesAt (animateRoutes routes children) y <->
  (c ∈ classesAt children y /\ c ∉ routeTokens) \/
  (is_Some (querySelector y children) /\ drawn routes y c).
Proof.
  intros Htidy. rewrite animateRoutes_end.
  rewrite classesAt_animateEnd, classesAt_clearRoutes, present_clearRoutes
    by done.
  cbn [Nat.add]. by rewrite marked_all.
Qed.

Lemma tidy_animateRoutes routes children :
  tidy children -> tidy (animateRoutes routes children).
Proof.
  intros H. rewrite animateRoutes_end. by apply tidy_animateEnd, tidy_clearRoutes.
Qed.

Lemma present_animateRoutes routes children y :
  is_Some (querySelector y (animateRoutes routes children))
  <-> is_Some (querySelector y children).
Proof.
  by rewrite animateRoutes_end, present_animateEnd, present_clearRoutes.
Qed.

Lemma patrolMap_dims : dims_ok (paramsOf patrolMap 2 4).
Proof. exact patrol_dims. Qed.

(** X6. On grids of side [gridSize], [renderMap] throws nothing and
    fills the container with one element per cell, row by row, free of
    route marks.  The element of a cell carries [terrain] exactly when the
    terrain flag is 0; otherwise it carries exactly one of [risk-high]
    ([risk >= 0.7], the threshold of the statistics), [risk-medium]
    ([0.4 <= risk < 0.7]) and [risk-low], and [animal] exactly when an
    animal is present. *)
Theorem renderMap_picture m rangers steps :
  dims_ok (paramsOf m rangers steps) ->
  exists children,
    renderMap m (map_gridSize m) = (children, None) /\
    map position children = cells (paramsOf m rangers steps) /\
    tidy children /\
    forall x, in_bounds (paramsOf m rangers steps) x ->
      exists e q,
        querySelector x children = Some e /\ position e = x /\
        cellAt (map_riskMap m) x = Some q /\
        let land := cellAt (map_terrainMap m) x <> Some 0 in
        ("terrain"%string ∈ classList e <-> ~ land) /\
        ("risk-high"%string ∈ classList e <-> land /\ (7 # 10 <= q)%Q) /\
        ("risk-medium"%string ∈ classList e
         <-> land /\ (4 # 10 <= q)%Q /\ (q < 7 # 10)%Q) /\
        ("risk-low"%string ∈ classList e <-> land /\ (q < 4 # 10)%Q) /\
        ("animal"%string ∈ classList e
         <-> land /\ cellAt (map_animalMap m) x = Some true).
Proof.
  intros Hd. exists (map (cellElement m) (cells (paramsOf m rangers steps))).
  split_and!.
  - by apply renderMap_spec.
  - rewrite map_map. rewrite <- (map_id (cells _)) at 2.
    apply map_ext. apply position_cellElement.
  - apply tidy_cellElements.
  - intros x Hx. pose proof Hx as [Hr Hc].
    destruct (has_dims_cell _ _ x (proj1 Hd) Hr Hc) as [q Hq].
    exists (cellElement m x), q. split_and!.
    + apply querySelector_cellElements. by apply in_cells.
    + apply position_cellElement.
    + done.
    + by apply cellElement_classes.
Qed.

Lemma renderMap_picture_witness :
  exists children,
    renderMap patrolMap 3 = (children, None) /\
    map position children = cells (paramsOf patrolMap 2 4) /\
    tidy children /\
    forall x, in_bounds (paramsOf patrolMap 2 4) x ->
      exists e q,
        querySelector x children = Some e /\ position e = x /\
        cellAt (map_riskMap patrolMap) x = Some q /\
        let land := cellAt (map_terrainMap patrolMap) x <> Some 0 in
        ("terrain"%string ∈ classList e <-> ~ land) /\
        ("risk-high"%string ∈ classList e <-> land /\ (7 # 10 <= q)%Q) /\
        ("risk-medium"%string ∈ classList e
         <-> land /\ (4 # 10 <= q)%Q /\ (q < 7 # 10)%Q) /\
        ("risk-low"%string ∈ classList e <-> land /\ (q < 4 # 10)%Q) /\
        ("animal"%string ∈ classList e
         <-> land /\ cellAt (map_animalMap patrolMap) x = Some true).
Proof.
  apply (renderMap_picture patrolMap 2 4). exact patrolMap_dims.
Defined.

(** X7. On a tidy page (one where a route colour never stands without
    [patrol] or [ranger], as after [renderMap] or any rendering),
    [renderRoutes] moves no element and leaves the page tidy; afterwards
    the cell at [y] shows its former classes other than the seven route
    tokens, [patrol] and the colour [route-(i mod 5)] for each route [i]
    that passes through [y], and [ranger] when [y] is the first cell of a
    route.  Points without an element on the page are skipped. *)
Theorem renderRoutes_picture routes children :
  tidy children ->
  map position (renderRoutes routes children) = map position children /\
  tidy (renderRoutes routes children) /\
  forall y c,
    c ∈ classesAt (renderRoutes routes children) y <->
    (c ∈ classesAt children y /\ c ∉ routeTokens) \/
    (is_Some (querySelector y children) /\
     exists i rt j,
       routes !! i = Some rt /\ path rt !! j = Some y /\
       (c = "patrol"%string \/ c = routeClass i \/
        (j = 0%nat /\ c = "ranger"%string))).
Proof.
  intros Htidy. split_and!.
  - unfold renderRoutes.
    by rewrite positions_markRoutes, positions_clearRoutes.
  - unfold renderRoutes. by apply tidy_markRoutes, tidy_clearRoutes.
  - intros y c. by apply classesAt_renderRoutes_tidy.
Qed.

Lemma renderRoutes_picture_witness :
  map position
    (renderRoutes (routes patrol_result)
       (map (cellElement patrolMap) (cells patrol)))
  = map position (map (cellElement patrolMap) (cells patrol)) /\
  tidy (renderRoutes (routes patrol_result)
          (map (cellElement patrolMap) (cells patrol))) /\
  forall y c,
    c ∈ classesAt (renderRoutes (routes patrol_result)
                     (map (cellElement patrolMap) (cells patrol))) y <->
    (c ∈ classesAt (map (cellElement patrolMap) (cells patrol)) y /\
     c ∉ routeTokens) \/
    (is_Some (querySelector y (map (cellElement patrolMap) (cells patrol))) /\
     exists i rt j,
       routes patrol_result !! i = Some rt /\ path rt !! j = Some y /\
       (c = "patrol"%string \/ c = routeClass i \/
        (j = 0%nat /\ c = "ranger"%string))).
Proof.
  apply (renderRoutes_picture (routes patrol_result)
           (map (cellElement patrolMap) (cells patrol))).
  apply tidy_cellElements.
Defined.

(** X8. The animation shows one frame per step of the longest path, and
    on a tidy page frame [s] shows exactly the first [s + 1] cells of
    every route: the former classes other than route tokens, plus [patrol]
    and the route colour on the cells that some route reaches within its
    steps [0..s], plus [ranger] on the first cells. *)
Theorem animateRoutes_frames routes children :
  tidy children ->
  length (animateFrames routes children) = longest routes /\
  forall s frame y c,
    animateFrames routes children !! s = Some frame ->
    c ∈ classesAt frame y <->
    (c ∈ classesAt children y /\ c ∉ routeTokens) \/
    (is_Some (querySelector y children) /\
     exists i rt j,
       routes !! i = Some rt /\ path rt !! j = Some y /\ (j <= s)%nat /\
       (c = "patrol"%string \/ c = routeClass i \/
        (j = 0%nat /\ c = "ranger"%string))).
Proof.
  intros Htidy. split; [apply length_animateSteps|].
  intros s frame y c [_ ->]%animateSteps_lookup.
  rewrite classesAt_animateEnd, classesAt_clearRoutes, present_clearRoutes
    by done.
  unfold marked. cbn [Nat.add]. split.
  - intros [?|(Hp & i & rt & j & Hrt & Hj & Hb & Hc)]; [by left|].
    right. split; [done|]. exists i, rt, j. split_and!; try done. lia.
  - intros [?|(Hp & i & rt & j & Hrt & Hj & Hb & Hc)]; [by left|].
    right. split; [done|]. exists i, rt, j. split_and!; try done; lia.
Qed.

Lemma animateRoutes_frames_witness :
  length (animateFrames (routes patrol_result)
            (map (cellElement patrolMap) (cells patrol)))
  = longest (routes patrol_result) /\
  forall s frame y c,
    animateFrames (routes patrol_result)
      (map (cellElement patrolMap) (cells patrol)) !! s = Some frame ->
    c ∈ classesAt frame y <->
    (c ∈ classesAt (map (cellElement patrolMap) (cells patrol)) y /\
     c ∉ routeTokens) \/
    (is_Some (querySelector y (map (cellElement patrolMap) (cells patrol))) /\
     exists i rt j,
       routes patrol_result !! i = Some rt /\ path rt !! j = Some y /\
       (j <= s)%nat /\
       (c = "patrol"%string \/ c = routeClass i \/
        (j = 0%nat /\ c = "ranger"%string))).
Proof.
  apply (animateRoutes_frames (routes patrol_result)
           (map (cellElement patrolMap) (cells patrol))).
  apply tidy_cellElements.
Defined.

(** X9. Whatever the page, the animation ends on the picture that
    [renderRoutes] draws at once: the elements stand where they stood and
    every cell shows the same classes. *)
Theorem animation_ends_as_rendered routes children :
  map position (animateRoutes routes children)
  = map position (renderRoutes routes children) /\
  forall y c,
    c ∈ classesAt (animateRoutes routes children) y <->
    c ∈ classesAt (renderRoutes routes children) y.
Proof.
  split.
  - rewrite animateRoutes_end, positions_animateEnd. unfold renderRoutes.
    by rewrite positions_markRoutes.
  - intros y c. rewrite animateRoutes_end. unfold renderRoutes.
    rewrite classesAt_animateEnd, classesAt_markRoutes. done.
Qed.

(** X10. No mark survives a new drawing: on a tidy page, animating the
    routes [new] after the routes [old] gives every cell the classes that
    animating [new] alone gives it. *)
Theorem redraw_forgets old new children :
  tidy children ->
  forall y c,
    c ∈ classesAt (animateRoutes new (animateRoutes old children)) y <->
    c ∈ classesAt (animateRoutes new children) y.
Proof.
  intros Htidy y c.
  rewrite (classesAt_animateRoutes_tidy new) by by apply tidy_animateRoutes.
  rewrite (classesAt_animateRoutes_tidy old) by done.
  rewrite (classesAt_animateRoutes_tidy new) by done.
  rewrite present_animateRoutes. split.
  - intros [[[H|[_ Hd]] Hn]|H]; [by left| |by right].
    by apply drawn_token in Hd.
  - intros [[H Hn]|H]; [left|by right]. split; [by left|done].
Qed.

Lemma redraw_forgets_witness :
  tidy (map (cellElement patrolMap) (cells patrol)) /\
  ("patrol"%string ∈
     classesAt
       (animateRoutes (routes corridor_result)
          (animateRoutes (routes patrol_result)
             (map (cellElement patrolMap) (cells patrol)))) (1, 1) <->
   "patrol"%string ∈
     classesAt
       (animateRoutes (routes corridor_result)
          (map (cellElement patrolMap) (cells patrol))) (1, 1)).
Proof.
  split; [apply tidy_cellElements|].
  apply (redraw_forgets (routes patrol_result) (routes corridor_result)
           (map (cellElement patrolMap) (cells patrol))).
  apply tidy_cellElements.
Defined.

(** ** The run, drawn on the map *)

Lemma occurrences_pos x l : 0 < occurrences x l <-> x ∈ l.
Proof.
  induction l as [|y l IH]; simpl.
  - split; [lia|by intros ?%elem_of_nil].
  - pose proof (occurrences_nonneg x l). rewrite elem_of_cons.
    case_decide as Hy; subst.
    + split; [by left|lia].
    + rewrite <- IH. split; [intros; right; lia|].
      intros [->|?]; [done|lia].
Qed.

Lemma visits_pos x rs :
  0 < visits x rs <-> exists rt, rt ∈ rs /\ x ∈ path rt.
Proof.
  induction rs as [|rt rs IH]; simpl.
  - split; [lia|]. by intros (? & ?%elem_of_nil & _).
  - pose proof (occurrences_nonneg x (path rt)).
    pose proof (visits_nonneg x rs). split.
    + intros Hpos.
      destruct (decide (0 < occurrences x (path rt))) as [Ho|Ho].
      * exists rt. split; [by left|]. by apply occurrences_pos.
      * destruct (proj1 IH) as (rt' & ? & ?); [lia|].
        exists rt'. split; [by right|done].
    + intros (rt' & [->|Hin]%elem_of_cons & Hx).
      * apply occurrences_pos in Hx. lia.
      * assert (0 < visits x rs) by (apply IH; eauto). lia.
Qed.

Lemma drawn_patrol routes y :
  drawn routes y "patrol" <-> exists rt, rt ∈ routes /\ y ∈ path rt.
Proof.
  unfold drawn. split.
  - intros (i & rt & j & Hrt & Hj & _). exists rt.
    split; by eapply list_elem_of_lookup_2.
  - intros (rt & [i Hrt]%list_elem_of_lookup_1 & [j Hj]%list_elem_of_lookup_1).
    exists i, rt, j. auto.
Qed.

Lemma drawn_ranger routes y :
  drawn routes y "ranger" <->
  exists rt, rt ∈ routes /\ head (path rt) = Some y.
Proof.
  unfold drawn. split.
  - intros (i & rt & j & Hrt & Hj & [?|[Hc|[-> _]]]); [done| |].
    + exfalso. revert Hc. unfold routeClass.
      generalize (decimal (Z.of_nat i mod 5)). intros s. simpl. discriminate.
    + exists rt. split; [by eapply list_elem_of_lookup_2|].
      by rewrite head_lookup.
  - intros (rt & [i Hrt]%list_elem_of_lookup_1 & Hh).
    exists i, rt, 0%nat. rewrite <- head_lookup. split_and!; [done..|].
    right. right. done.
Qed.

Lemma chain_open p x ext y :
  chain p x ext -> y ∈ ext -> in_bounds p y /\ passable p y.
Proof.
  revert x. induction ext as [|z ext IH]; intros x; simpl.
  - by intros _ ?%elem_of_nil.
  - intros [Hz Hch] [->|Hin]%elem_of_cons.
    + by eapply candidates_open.
    + by eapply IH.
Qed.

Lemma route_ok_land p rt y :
  route_ok p rt -> y ∈ path rt ->
  in_bounds p y /\ cellAt (terrainMap p) y <> Some 0.
Proof.
  intros (start & ext & -> & Hb & Hz & Hch & _) [->|Hin]%elem_of_cons.
  - split; [done|]. intros Hs. apply isZero_spec in Hs. congruence.
  - destruct (chain_open _ _ _ _ Hch Hin) as [? Hp]. split; [done|].
    unfold passable in Hp. congruence.
Qed.

(** X11. What [runOptimization] puts on the screen when the run returns
    and the map drawn by [renderMap] is the one it ran on: after
    [animateRoutes(result.routes)] every cell keeps the appearance classes
    of the map, a cell is marked [patrol] exactly when its coverage counter
    is positive and [ranger] exactly when some route starts on it, and no
    mark falls on a cell drawn as [terrain]. *)
Theorem run_drawn_on_map m rangers steps fuel rnd res children :
  dims_ok (paramsOf m rangers steps) ->
  runLocalOptimization fuel rnd (paramsOf m rangers steps) = Returned res ->
  renderMap m (map_gridSize m) = (children, None) ->
  forall y, in_bounds (paramsOf m rangers steps) y ->
    (forall c, c ∉ routeTokens ->
       c ∈ classesAt (animateRoutes (routes res) children) y <->
       c ∈ classesAt children y) /\
    ("patrol"%string ∈ classesAt (animateRoutes (routes res) children) y <->
     0 < coverageOf (coverage res) y) /\
    ("ranger"%string ∈ classesAt (animateRoutes (routes res) children) y <->
     exists rt, rt ∈ routes res /\ head (path rt) = Some y) /\
    ("terrain"%string ∈ classesAt children y ->
     forall c, c ∈ routeTokens ->
       c ∉ classesAt (animateRoutes (routes res) children) y).
Proof.
  intros Hd Hrun Hrender y Hy.
  rewrite (renderMap_spec _ rangers steps) in Hrender by done.
  injection Hrender as <-.
  destruct (run_routes _ _ _ _ Hrun) as (_ & Hok & _ & Hcount).
  pose proof (tidy_cellElements m (cells (paramsOf m rangers steps))) as Htidy.
  pose proof (querySelector_cellElements m y _ (in_cells _ _ Hy)) as Hq.
  assert (forall c,
    c ∈ classesAt
          (animateRoutes (routes res)
             (map (cellElement m) (cells (paramsOf m rangers steps)))) y <->
    (c ∈ classList (cellElement m y) /\ c ∉ routeTokens) \/
    drawn (routes res) y c) as Hcl.
  { intros c. rewrite classesAt_animateRoutes_tidy by done.
    unfold classesAt. rewrite Hq. split.
    - intros [?|[_ ?]]; auto.
    - intros [?|?]; [by left|right]. split; [by eexists|done]. }
  assert (classesAt (map (cellElement m) (cells (paramsOf m rangers steps))) y
          = classList (cellElement m y)) as Hold.
  { unfold classesAt. by rewrite Hq. }
  rewrite Hold. split_and!.
  - intros c Hc. rewrite Hcl. split.
    + intros [[? _]|?%drawn_token]; done.
    + intros ?. by left.
  - rewrite Hcl, drawn_patrol. unfold coverageOf. rewrite Hcount by done.
    simpl. rewrite visits_pos. split.
    + intros [[_ Hn]|?]; [|done]. exfalso. apply Hn.
      apply list_elem_of_In. vm_compute. auto.
    + intros ?. by right.
  - rewrite Hcl, drawn_ranger. split.
    + intros [[_ Hn]|?]; [|done]. exfalso. apply Hn.
      apply list_elem_of_In. vm_compute. auto.
    + intros ?. by right.
  - intros Hter c Hc. rewrite Hcl. intros [[_ Hn]|Hdr]; [done|].
    destruct Hdr as (i & rt & j & Hrt & Hj & _).
    assert (route_ok (paramsOf m rangers steps) rt) as Hrok.
    { eapply Forall_forall; [exact Hok|].
      by eapply list_elem_of_lookup_2. }
    destruct (route_ok_land _ _ y Hrok) as [_ Hland].
    { by eapply list_elem_of_lookup_2. }
    pose proof Hy as [Hr Hc'].
    destruct (has_dims_cell _ _ y (proj1 Hd) Hr Hc') as [q Hrisk].
    destruct (cellElement_classes m y q Hrisk) as (Ht & _).
    apply Ht in Hter. by apply Hter.
Qed.

Lemma run_drawn_on_map_witness :
  (forall c, c ∉ routeTokens ->
     c ∈ classesAt (animateRoutes (routes patrol_result)
                      (map (cellElement patrolMap) (cells patrol))) (1, 1) <->
     c ∈ classesAt (map (cellElement patrolMap) (cells patrol)) (1, 1)) /\
  ("patrol"%string ∈
     classesAt (animateRoutes (routes patrol_result)
                  (map (cellElement patrolMap) (cells patrol))) (1, 1) <->
   0 < coverageOf (coverage patrol_result) (1, 1)) /\
  ("ranger"%string ∈
     classesAt (animateRoutes (routes patrol_result)
                  (map (cellElement patrolMap) (cells patrol))) (1, 1) <->
   exists rt, rt ∈ routes patrol_result /\ head (path rt) = Some (1, 1)) /\
  ("terrain"%string ∈
     classesAt (map (cellElement patrolMap) (cells patrol)) (1, 1) ->
   forall c, c ∈ routeTokens ->
     c ∉ classesAt (animateRoutes (routes patrol_result)
                      (map (cellElement patrolMap) (cells patrol))) (1, 1)).
Proof.
  apply (run_drawn_on_map patrolMap 2 4 2%nat draws patrol_result
           (map (cellElement patrolMap) (cells patrol))).
  - exact patrolMap_dims.
  - reflexivity.
  - reflexivity.
  - unfold in_bounds. simpl. lia.
Defined.

(** ** The click handlers: properties *)

Lemma setLoading_false_true (btn : Button) :
  let btn' := setLoadingButton false (setLoadingButton true btn) in
  disabled btn' = false /\
  forall c, c ∈ buttonClasses btn' <->
            c <> "loading"%string /\ c ∈ buttonClasses btn.
Proof.
  simpl. split; [done|]. intros c.
  rewrite elem_of_removeClass, elem_of_addClass. split.
  - intros [Hc [?|?]]; done.
  - intros [? ?]. auto.
Qed.

Lemma buttons_restored (l : list Button) :
  Forall2 (fun btn btn' =>
             disabled btn' = false /\
             forall c, c ∈ buttonClasses btn' <->
                       c <> "loading"%string /\ c ∈ buttonClasses btn)
    l (map (setLoadingButton false) (map (setLoadingButton true) l)).
Proof.
  induction l as [|btn l IH]; simpl; constructor; [|done].
  apply setLoading_false_true.
Qed.

(** X12. A click on the generate button never throws, for any grid size
    and any source of random numbers: [currentMap] becomes the generated
    map, the container holds one element per cell of it, row by row, each
    with the appearance of its cell and no route mark, the results panel
    is hidden, and the buttons and alerts are untouched. *)
Theorem generate_draws_the_map side rnd k app :
  exists app',
    generateRandomMap_page side rnd k app
    = (app', (generateRandomMap side rnd k).2, None) /\
    currentMap app' = (generateRandomMap side rnd k).1 /\
    mapGrid app'
    = map (cellElement (currentMap app'))
          (cells (paramsOf (currentMap app') 0 0)) /\
    length (mapGrid app') = (Z.to_nat side * Z.to_nat side)%nat /\
    tidy (mapGrid app') /\
    "hidden"%string ∈ results app' /\
    buttons app' = buttons app /\ alerts app' = alerts app.
Proof.
  unfold generateRandomMap_page.
  pose proof (generated_gridSize side rnd k) as Hgs.
  pose proof (generated_dims side rnd k) as Hd.
  destruct (generateRandomMap side rnd k) as [m k'] eqn:Hgen.
  simpl in Hgs, Hd.
  assert (dims_ok (paramsOf m 0 0)) as Hdims.
  { unfold dims_ok. simpl. by rewrite Hgs. }
  pose proof (renderMap_spec m 0 0 Hdims) as Hr. rewrite Hgs in Hr.
  rewrite Hr. eexists. split; [done|]. simpl. split_and!; try done.
  - rewrite length_map, length_cells. simpl. by rewrite Hgs.
  - apply tidy_cellElements.
  - apply elem_of_addClass. by left.
Qed.

(** X13. Whenever a click on the optimize button with a map loaded comes
    to an end, it ends with exactly one more alert, and that alert reports
    a failure: also when the optimisation returned and its routes were
    animated, because [Visualizer] has no method [updateStats].  The
    results panel and [currentMap] are as before, every button is enabled
    again and has lost at most the class [loading]; the grid shows the
    animated routes when the run returned and is untouched when it
    threw. *)
Theorem optimize_always_reports_failure fuel rnd rangers steps app app' :
  map_riskMap (currentMap app) <> [] ->
  runOptimization fuel rnd rangers steps app = Returned app' ->
  (exists e,
     alerts app' = alerts app ++ [OptimizationFailed e] /\
     ((e = TypeError /\
       exists res,
         runLocalOptimization fuel rnd
           (paramsOf (currentMap app) rangers steps) = Returned res /\
         mapGrid app' = animateRoutes (routes res) (mapGrid app)) \/
      (runLocalOptimization fuel rnd
         (paramsOf (currentMap app) rangers steps) = Thrown e /\
       mapGrid app' = mapGrid app))) /\
  currentMap app' = currentMap app /\
  results app' = results app /\
  Forall2 (fun btn btn' =>
             disabled btn' = false /\
             forall c, c ∈ buttonClasses btn' <->
                       c <> "loading"%string /\ c ∈ buttonClasses btn)
    (buttons app) (buttons app').
Proof.
  intros Hmap. unfold runOptimization.
  rewrite bool_decide_false
    by (destruct (map_riskMap (currentMap app)); simpl; congruence).
  unfold optimizeAndDraw. cbn [currentMap setLoading].
  destruct (runLocalOptimization _ _ _) as [res|e| |] eqn:Hrun;
    cbn -[animateRoutes]; intros Hret; try discriminate.
  - injection Hret as <-. cbn -[animateRoutes]. split_and!; try done.
    + exists TypeError. split; [done|]. left. split; [done|].
      by exists res.
    + apply buttons_restored.
  - injection Hret as <-. cbn. split_and!; try done.
    + exists e. split; [done|]. by right.
    + apply buttons_restored.
Qed.

Lemma optimize_always_reports_failure_witness :
  (exists e,
     alerts patrolApp_after = alerts patrolApp ++ [OptimizationFailed e] /\
     ((e = TypeError /\
       exists res,
         runLocalOptimization 2 draws
           (paramsOf (currentMap patrolApp) 2 4) = Returned res /\
         mapGrid patrolApp_after
         = animateRoutes (routes res) (mapGrid patrolApp)) \/
      (runLocalOptimization 2 draws
         (paramsOf (currentMap patrolApp) 2 4) = Thrown e /\
       mapGrid patrolApp_after = mapGrid patrolApp))) /\
  currentMap patrolApp_after = currentMap patrolApp /\
  results patrolApp_after = results patrolApp /\
  Forall2 (fun btn btn' =>
             disabled btn' = false /\
             forall c, c ∈ buttonClasses btn' <->
                       c <> "loading"%string /\ c ∈ buttonClasses btn)
    (buttons patrolApp) (buttons patrolApp_after).
Proof.
  apply (optimize_always_reports_failure 2 draws 2 4 patrolApp
           patrolApp_after).
  - discriminate.
  - reflexivity.
Defined.

(** X14. After a click on the generate button, the optimize button asks
    for a map exactly when the grid size read from the form was not
    positive: with a positive size the guard of [runOptimization] never
    fires, with any other size the click does nothing but raise the
    alert. *)
Theorem guard_fires_on_empty_grid side rnd k app fuel rnd' rangers steps :
  runOptimization fuel rnd' rangers steps
    (generateRandomMap_page side rnd k app).1.1
  = Returned (alert PleaseGenerate (generateRandomMap_page side rnd k app).1.1)
  <-> side <= 0.
Proof.
  destruct (generate_draws_the_map side rnd k app)
    as (app1 & -> & Hm & _).
  pose proof (generateRandomMap_rows side rnd k) as [Hlen HF].
  cbn zeta in Hlen, HF. cbn [fst].
  assert (length (map_riskMap (currentMap app1)) = Z.to_nat side) as Hrows.
  { rewrite Hm. pose proof (Forall3_length_lr _ _ _ _ HF). lia. }
  unfold runOptimization. case_bool_decide as Hz.
  - split; [lia|done].
  - split; [|lia]. unfold optimizeAndDraw. cbn [currentMap setLoading].
    destruct (runLocalOptimization _ _ _); cbn -[animateRoutes];
      intros Heq; try discriminate.
    + apply (f_equal (fun o => match o with
                               | Returned a => alerts a
                               | _ => []
                               end)) in Heq.
      simpl in Heq. apply app_inv_head in Heq. discriminate.
    + apply (f_equal (fun o => match o with
                               | Returned a => alerts a
                               | _ => []
                               end)) in Heq.
      simpl in Heq. apply app_inv_head in Heq. discriminate.
Qed.
